(** * The CSV append store of screen_capture_extractor.py and its loader

    A shallow embedding of the schema-reconciling CSV store
    ([append_row_to_csv], [remove_last_row_from_csv],
    [sync_header_and_append], [sync_header_and_append_many]), of the record
    flattening done in [App._run_save_worker] and
    [App._run_ollama_extraction], and of [load_dataframe] from
    view_captures.py.

    Files are modelled after [csv.reader]: a file is the list of its
    physical records and a record is the list of its fields.  A blank line
    is the record [[]].  Quoting and line terminators live below this level. *)

From stdpp Require Import base strings list gmap pretty.

Open Scope string_scope.
Open Scope list_scope.
Open Scope nat_scope.
#[local] Set Warnings "-clear-no-such-hyp,-register-all".

(** ** Python dictionaries

    A [dict] keeps its keys in insertion order; assigning to a key that is
    already present keeps the key where it is. *)

Section pydict.
Context {V : Type}.

Definition pydict := list (string * V).

Fixpoint dict_get (d : pydict) (k : string) : option V :=
  match d with
  | [] => None
  | (k', v) :: d' => if decide (k' = k) then Some v else dict_get d' k
  end.

(** [d[k] = v] *)
Fixpoint dict_set (d : pydict) (k : string) (v : V) : pydict :=
  match d with
  | [] => [(k, v)]
  | (k', v') :: d' =>
      if decide (k' = k) then (k', v) :: d' else (k', v') :: dict_set d' k v
  end.

Definition dict_keys (d : pydict) : list string := d.*1.

(** [{k: f(k) for k in ks}] *)
Definition dict_comp (ks : list string) (f : string → V) : pydict :=
  foldl (λ d k, dict_set d k (f k)) [] ks.

End pydict.

Arguments pydict : clear implicits.

(** ** Values that reach [csv.writer]

    The writer prints [None] as the empty field and a [str] as itself. *)

Class CsvText (V : Type) := {
  csv_text : V → string;   (* what the writer prints for the value *)
  of_str : string → V      (* a [str] literal seen at type [V] *)
}.

#[export] Instance csv_text_str : CsvText string :=
  {| csv_text := id; of_str := id |}.

(** [Optional[str]]: [None] is Python's [None]. *)
#[export] Instance csv_text_opt : CsvText (option string) :=
  {| csv_text := default ""; of_str := Some |}.

(** ** Records, files and the file system *)

Abbreviation record := (list string).
Abbreviation csv_file := (list record).

(** A row handed to the store: [Dict[str, str]]. *)
Definition Row := pydict string.

(** A row produced by [csv.DictReader].  The reader files the surplus
    fields of a long record under the key [None]; no [str] key can collide
    with it, so the model keeps them in a component of their own. *)
Record ReaderRow := {
  rr_named : pydict (option string);
  rr_rest : option (list string)
}.

Inductive py_exn :=
| ValueError | AttributeError | TypeError | FileNotFoundError
| EmptyDataError.   (* pandas.errors *)

#[export] Instance py_exn_eq_dec : EqDecision py_exn.
Proof. solve_decision. Defined.

(** [csv.DictReader.__next__] on one non-blank record. *)
Definition reader_row (fieldnames : list string) (r : record) : ReaderRow :=
  let d := foldl (λ d kv, dict_set d kv.1 (Some kv.2)) [] (zip fieldnames r) in
  if decide (length fieldnames < length r) then
    {| rr_named := d; rr_rest := Some (drop (length fieldnames) r) |}
  else
    {| rr_named := foldl (λ d k, dict_set d k None) d (drop (length r) fieldnames);
       rr_rest := None |}.

Definition is_blank (r : record) : bool :=
  match r with [] => true | _ => false end.

(** [reader.fieldnames or []]: the first record, blank or not; nothing for
    an empty file. *)
Definition fieldnames_of (f : csv_file) : list string :=
  match f with [] => [] | h :: _ => h end.

(** The records [DictReader] iterates over: blank ones are skipped. *)
Definition data_records (f : csv_file) : list record :=
  filter (λ r, is_blank r = false) (tail f).

(** [list(reader)] *)
Definition DictReader_rows (f : csv_file) : list ReaderRow :=
  reader_row (fieldnames_of f) <$> data_records f.

(** [DictWriter._dict_to_list]: with [extrasaction="raise"] a key outside
    [fieldnames] is a [ValueError]; a missing key prints [restval=""]. *)
Definition dict_to_list `{CsvText V}
    (fieldnames : list string) (d : pydict V) : py_exn + record :=
  if decide (Forall (λ k, k ∈ fieldnames) (dict_keys d)) then
    inr ((λ k, from_option csv_text "" (dict_get d k)) <$> fieldnames)
  else inl ValueError.

(** The same for a row that comes straight from the reader: its [None] key
    is never among the field names. *)
Definition reader_row_to_list
    (fieldnames : list string) (r : ReaderRow) : py_exn + record :=
  match rr_rest r with
  | Some _ => inl ValueError
  | None => dict_to_list fieldnames (rr_named r)
  end.

(** [{k: r.get(k, "") for k in fields}] for an incoming row ... *)
Definition project_row (fields : list string) (r : Row) : Row :=
  dict_comp fields (λ k, default (of_str "") (dict_get r k)).

(** ... and for a row read back from the file. *)
Definition project_reader_row
    (fields : list string) (r : ReaderRow) : pydict (option string) :=
  dict_comp fields (λ k, default (of_str "") (dict_get (rr_named r) k)).

(** The file system: path to content; no entry, no file.  Directories are
    not modelled, so [ensure_parent_dir] has no effect here, and
    [os.path.exists] and [os.path.isfile] agree. *)
Abbreviation filesystem := (gmap string csv_file).

Definition isfile (fs : filesystem) (path : string) : bool :=
  bool_decide (is_Some (fs !! path)).

(** ** Primitive file actions

    Each operation of the store reads the file first and then performs a
    sequence of these. *)
Inductive io :=
| OpenW (path : string)                (* open(path, "w"): create or truncate *)
| OpenA (path : string)                (* open(path, "a"): create if missing *)
| WriteRow (path : string) (r : record). (* writer.writerow *)

#[export] Instance io_eq_dec : EqDecision io.
Proof. solve_decision. Defined.

Definition io_step (fs : filesystem) (a : io) : filesystem :=
  match a with
  | OpenW p => <[p := []]> fs
  | OpenA p => match fs !! p with Some _ => fs | None => <[p := []]> fs end
  | WriteRow p r => alter (λ f, f ++ [r]) p fs
  end.

Definition io_run (fs : filesystem) (t : list io) : filesystem :=
  foldl io_step fs t.

(** What a call does: the actions it performed, in order, and how it ended. *)
Record outcome (A : Type) := Outcome {
  trace : list io;
  result : py_exn + A
}.
Arguments Outcome {A} _ _.
Arguments trace {A} _.
Arguments result {A} _.

Definition exec {A} (fs : filesystem) (o : outcome A) : filesystem :=
  io_run fs (trace o).

(** Writing rows one after the other until one of them raises. *)
Fixpoint write_rows (path : string) (rs : list (py_exn + record)) : outcome () :=
  match rs with
  | [] => Outcome [] (inr ())
  | inl e :: _ => Outcome [] (inl e)
  | inr r :: rs' =>
      let o := write_rows path rs' in
      Outcome (WriteRow path r :: trace o) (result o)
  end.

(** ** The store *)

(** Lines 35-43. *)
Definition append_row_to_csv
    (fs : filesystem) (csv_path : string) (row : Row) : outcome () :=
  let exists_ := isfile fs csv_path in
  let fieldnames := dict_keys row in
  let o := write_rows csv_path [dict_to_list fieldnames row] in
  Outcome (OpenA csv_path ::
           (if exists_ then [] else [WriteRow csv_path fieldnames]) ++ trace o)
          (result o).

(** Lines 46-61.  An exception raised by [writerows] leaves the function
    before its [return True]. *)
Definition remove_last_row_from_csv
    (fs : filesystem) (csv_path : string) : outcome bool :=
  match fs !! csv_path with
  | None => Outcome [] (inr false)
  | Some f =>
      let rows := DictReader_rows f in
      let fieldnames := fieldnames_of f in
      match rows with
      | [] => Outcome [] (inr false)
      | _ =>
          let rows := removelast rows in
          let o := write_rows csv_path (reader_row_to_list fieldnames <$> rows) in
          Outcome (OpenW csv_path :: WriteRow csv_path fieldnames :: trace o)
                  (match result o with inl e => inl e | inr _ => inr true end)
      end
  end.

(** The loop of lines 80-83: old header, then the keys not yet in it. *)
Definition union_fields (old_fields : list string) (keys : list string) : list string :=
  foldl (λ new_fields k, if decide (k ∈ new_fields) then new_fields
                         else new_fields ++ [k]) old_fields keys.

(** Lines 64-97. *)
Definition sync_header_and_append
    (fs : filesystem) (csv_path : string) (row : Row) : outcome () :=
  match fs !! csv_path with
  | None => append_row_to_csv fs csv_path row
  | Some f =>
      let old_fields := fieldnames_of f in
      let rows := DictReader_rows f in
      let new_fields := union_fields old_fields (dict_keys row) in
      if decide (new_fields = old_fields) then
        let o := write_rows csv_path
                   [dict_to_list new_fields (project_row new_fields row)] in
        Outcome (OpenA csv_path :: trace o) (result o)
      else
        let o := write_rows csv_path
                   (((λ r, dict_to_list new_fields (project_reader_row new_fields r)) <$> rows)
                    ++ [dict_to_list new_fields (project_row new_fields row)]) in
        Outcome (OpenW csv_path :: WriteRow csv_path new_fields :: trace o) (result o)
  end.

(** *** Iterating a [set] of strings

    CPython walks a set in the order of its hash-table slots, and the hash
    of a [str] is salted anew for every process.  The model takes the
    resulting rank of each string as a parameter, [slot]: a set is iterated
    by increasing rank, equal ranks in order of insertion.  The salt is
    not known, so nothing is assumed of [slot]. *)

Section set_order.
Variable slot : string → nat.

Fixpoint slot_insert (x : string) (l : list string) : list string :=
  match l with
  | [] => [x]
  | y :: l' => if decide (slot y ≤ slot x) then y :: slot_insert x l'
               else x :: l
  end.

(** [list(s)] for the set [s] built by adding the elements of [l] in order. *)
Definition set_iter (l : list string) : list string :=
  foldl (λ acc x, slot_insert x acc) [] (remove_dups l).

(** Lines 100-130. *)
Definition sync_header_and_append_many
    (fs : filesystem) (csv_path : string) (rows : list Row) : outcome () :=
  match fs !! csv_path with
  | None =>
      match rows with
      | [] => Outcome [] (inr ())
      | _ =>
          let fieldnames := set_iter (concat (dict_keys <$> rows)) in
          let o := write_rows csv_path
                     ((λ r, dict_to_list fieldnames (project_row fieldnames r)) <$> rows) in
          Outcome (OpenW csv_path :: WriteRow csv_path fieldnames :: trace o) (result o)
      end
  | Some f =>
      let old_fields := fieldnames_of f in
      let existing_rows := DictReader_rows f in
      let new_fields_set := old_fields ++ concat (dict_keys <$> rows) in
      let new_fields :=
        old_fields ++ filter (λ k, k ∉ old_fields) (set_iter new_fields_set) in
      let o := write_rows csv_path
                 (((λ r, dict_to_list new_fields (project_reader_row new_fields r))
                     <$> existing_rows)
                  ++ ((λ r, dict_to_list new_fields (project_row new_fields r)) <$> rows)) in
      Outcome (OpenW csv_path :: WriteRow csv_path new_fields :: trace o) (result o)
  end.

End set_order.

(** The header and the file a path holds; no file, no columns. *)
Definition header_at (fs : filesystem) (path : string) : list string :=
  from_option fieldnames_of [] (fs !! path).

(** ** What the writer prints

    The dictionary comprehension followed by [writerow] comes down to
    looking every column up in the row. *)

(** An incoming row against a header: the row's value for each column,
    the empty string where the row has none. *)
Definition render (fields : list string) (r : Row) : record :=
  (λ k, default "" (dict_get r k)) <$> fields.

(** The same for a row read back from the file; [None] prints empty. *)
Definition render_reader (fields : list string) (r : ReaderRow) : record :=
  (λ k, match dict_get (rr_named r) k with
        | Some (Some s) => s
        | _ => ""
        end) <$> fields.

(** A record cut or filled with empty fields to [n] columns. *)
Definition pad (n : nat) (r : record) : record :=
  take n r ++ replicate (n - length r) "".

(** The path an action works on. *)
Definition io_path (a : io) : string :=
  match a with OpenW p | OpenA p | WriteRow p _ => p end.

(** ** What a rewrite leaves *)

(** The content a rewrite leaves: the header, the rows read from the old
    file rendered against it, then the incoming rows. *)
Definition rewritten (new_fields : list string) (f : csv_file) (rows : list Row)
    : csv_file :=
  new_fields :: (render_reader new_fields <$> DictReader_rows f)
             ++ (render new_fields <$> rows).

(** ** The loader of view_captures.py

    [load_dataframe] raises [FileNotFoundError] itself and leaves the rest
    to [pd.read_csv(csv_path, dtype=str, keep_default_na=False)].  The
    model of that call covers the tables whose column names are distinct
    and not empty and whose records are no longer than the header: blank
    lines are skipped, the first line left is the header, every value stays
    the string it is and a short record is filled with empty strings.
    Outside of that (renamed duplicate or empty column names, surplus
    fields, lines made of blanks only) the model gives no answer, [None]. *)

Record Table := {
  columns : list string;
  data : list (list string)
}.

Fixpoint only_blanks (s : string) : bool :=
  match s with
  | EmptyString => true
  | String c s' =>
      (bool_decide (c = Ascii.ascii_of_nat 32) || bool_decide (c = Ascii.ascii_of_nat 9))
      && only_blanks s'
  end.

(** A line of spaces and tabs and nothing else. *)
Definition blank_line (r : record) : bool :=
  match r with
  | [s] => negb (bool_decide (s = "")) && only_blanks s
  | _ => false
  end.

(** [pd.read_csv(csv_path, dtype=str, keep_default_na=False)] *)
Definition read_csv (f : csv_file) : option (py_exn + Table) :=
  if existsb blank_line f then None
  else
    match filter (λ r, is_blank r = false) f with
    | [] => Some (inl EmptyDataError)
    | h :: rs =>
        if decide (NoDup h ∧ ("" ∉ h) ∧ Forall (λ r, length r ≤ length h) rs) then
          Some (inr {| columns := h; data := pad (length h) <$> rs |})
        else None
    end.

(** view_captures.py, lines 62-66. *)
Definition load_dataframe (fs : filesystem) (csv_path : string)
    : option (py_exn + Table) :=
  match fs !! csv_path with
  | None => Some (inl FileNotFoundError)
  | Some f => read_csv f
  end.

(** ** Tables

    The table a file stands for (spec, data model): its first record as the
    header, unique names, and no data record longer than the header. *)
Definition wf_table (f : csv_file) : Prop :=
  NoDup (fieldnames_of f) ∧
  Forall (λ r, length r ≤ length (fieldnames_of f)) (tail f).

#[export] Instance wf_table_dec f : Decision (wf_table f).
Proof. unfold wf_table. apply _. Defined.

(** The rows of that table, every one as wide as the header. *)
Definition table_rows (f : csv_file) : list record :=
  pad (length (fieldnames_of f)) <$> data_records f.

Definition table_of (f : csv_file) : Table :=
  {| columns := fieldnames_of f; data := table_rows f |}.

(** Every call opens the file at most once and then only writes records. *)
Inductive trace_shape (p : string) : list io → Prop :=
| shape_idle : trace_shape p []
| shape_rewrite recs : trace_shape p (OpenW p :: (WriteRow p <$> recs))
| shape_append recs : trace_shape p (OpenA p :: (WriteRow p <$> recs)).

(** ** Sequences of operations *)

Inductive store_op :=
| Append (row : Row)               (* sync_header_and_append *)
| AppendMany (rows : list Row)     (* sync_header_and_append_many *)
| RemoveLast.                      (* remove_last_row_from_csv *)

Section store_ops.
Variable slot : string → nat.

Definition op_trace (fs : filesystem) (p : string) (op : store_op) : list io :=
  match op with
  | Append row => trace (sync_header_and_append fs p row)
  | AppendMany rows => trace (sync_header_and_append_many slot fs p rows)
  | RemoveLast => trace (remove_last_row_from_csv fs p)
  end.

Definition run_op (fs : filesystem) (p : string) (op : store_op) : filesystem :=
  io_run fs (op_trace fs p op).

Definition run_ops (fs : filesystem) (p : string) (ops : list store_op) : filesystem :=
  foldl (λ fs op, run_op fs p op) fs ops.

End store_ops.



(** ** Files and salts of the examples *)

(** The table of the spec's scenario after its two appends. *)
Definition scenario_file : csv_file :=
  [["a"; "b"; "c"]; ["1"; "2"; ""]; ["3"; ""; "4"]].

Definition scenario_fs : filesystem := {[ "captures.csv" := scenario_file ]}.

(** One column, two rows. *)
Definition small_fs : filesystem := {[ "captures.csv" := [["a"]; ["1"]; ["2"]] ]}.

(** A salt under which [b] comes before [a]. *)
Definition slot_b_first (s : string) : nat := if decide (s = "b") then 0 else 1.

(** ** Model answers and their flattening

    What [json.loads] returns.  A float is carried by the text
    [float.__repr__] prints for it, the only thing the code asks of it
    besides its truth value. *)

Inductive pyfloat :=
| FFinite (repr : string)
| FInf | FNegInf | FNaN.

Inductive json :=
| JNull
| JBool (b : bool)
| JInt (z : Z)
| JFloat (x : pyfloat)
| JStr (s : string)
| JList (l : list json)
| JDict (d : list (string * json)).

Definition dquote : string := String (Ascii.ascii_of_nat 34) EmptyString.

Definition hex_digit (n : nat) : string :=
  String (Ascii.ascii_of_nat (if decide (n < 10) then 48 + n else 87 + n)) EmptyString.

(** [json.dumps] of one character of a string, [ensure_ascii=False]: the
    quote, the backslash and the control characters are escaped. *)
Definition json_escape_char (c : Ascii.ascii) : string :=
  let n := Ascii.nat_of_ascii c in
  if decide (n = 34) then "\" +:+ dquote
  else if decide (n = 92) then "\\"
  else if decide (n = 10) then "\n"
  else if decide (n = 13) then "\r"
  else if decide (n = 9) then "\t"
  else if decide (n = 8) then "\b"
  else if decide (n = 12) then "\f"
  else if decide (n < 32) then "\u00" +:+ hex_digit (n / 16) +:+ hex_digit (n mod 16)
  else String c EmptyString.

Fixpoint json_escape (s : string) : string :=
  match s with
  | EmptyString => EmptyString
  | String c s' => json_escape_char c +:+ json_escape s'
  end.

Definition json_quote (s : string) : string := dquote +:+ json_escape s +:+ dquote.

Definition float_repr (x : pyfloat) : string :=
  match x with
  | FFinite r => r | FInf => "inf" | FNegInf => "-inf" | FNaN => "nan"
  end.

Definition float_json (x : pyfloat) : string :=
  match x with
  | FFinite r => r | FInf => "Infinity" | FNegInf => "-Infinity" | FNaN => "NaN"
  end.

(** [json.dumps(v, ensure_ascii=False)] *)
Fixpoint json_dumps (v : json) : string :=
  match v with
  | JNull => "null"
  | JBool b => if b then "true" else "false"
  | JInt z => pretty z
  | JFloat x => float_json x
  | JStr s => json_quote s
  | JList l => "[" +:+ String.concat ", " (map json_dumps l) +:+ "]"
  | JDict d =>
      "{" +:+ String.concat ", "
                (map (λ kv, let '(k, v) := kv in json_quote k +:+ ": " +:+ json_dumps v) d)
          +:+ "}"
  end.

Section python_text.
(** [repr] of a [str] picks its quotes and escapes what is not printable,
    which takes the Unicode tables; it stays a parameter. *)
Variable repr_str : string → string.

Fixpoint py_repr (v : json) : string :=
  match v with
  | JNull => "None"
  | JBool b => if b then "True" else "False"
  | JInt z => pretty z
  | JFloat x => float_repr x
  | JStr s => repr_str s
  | JList l => "[" +:+ String.concat ", " (map py_repr l) +:+ "]"
  | JDict d =>
      "{" +:+ String.concat ", "
                (map (λ kv, let '(k, v) := kv in repr_str k +:+ ": " +:+ py_repr v) d)
          +:+ "}"
  end.

(** [str(v)] *)
Definition py_str (v : json) : string :=
  match v with
  | JStr s => s
  | _ => py_repr v
  end.

(** [_run_save_worker], lines 398, 400 and 406: ["" if v is None else str(v)] *)
Definition stringify_worker (v : json) : string :=
  match v with
  | JNull => ""
  | _ => py_str v
  end.

(** [_run_ollama_extraction], lines 454-457. *)
Definition stringify_normalize (v : json) : string :=
  match v with
  | JDict _ | JList _ => json_dumps v
  | JNull => ""
  | _ => py_str v
  end.

(** [_run_ollama_extraction], lines 451-458, on the parsed answer. *)
Definition normalize (data : json) : Row :=
  match data with
  | JDict d => foldl (λ n kv, dict_set n kv.1 (stringify_normalize kv.2)) [] d
  | _ => []
  end.

End python_text.

(** *** Exceptions as values *)

Definition exn_bind {A B} (x : py_exn + A) (k : A → py_exn + B) : py_exn + B :=
  match x with
  | inl e => inl e
  | inr a => k a
  end.

Notation "x ←! e ; k" := (exn_bind e (λ x, k))
  (at level 20, e at level 0, k at level 200, right associativity, only parsing).

(** A [for] loop that builds a list and stops at the first exception. *)
Fixpoint exn_map {A B} (g : A → py_exn + B) (l : list A) : py_exn + list B :=
  match l with
  | [] => inr []
  | x :: l' => y ←! (g x); ys ←! (exn_map g l'); inr (y :: ys)
  end.

(** *** The worker *)

(** The dataclass at the top of the file. *)
Record ExtractionResult := {
  user_name : option string;
  follower_count : option string;
  following_count : option string;
  posts_count : option string;
  summary : option string
}.

Definition asdict (e : ExtractionResult) : pydict (option string) :=
  [("user_name", user_name e); ("follower_count", follower_count e);
   ("following_count", following_count e); ("posts_count", posts_count e);
   ("summary", summary e)].

(** What the extraction hands the worker: a [dict] or, by the type the
    last branch expects, the dataclass. *)
Inductive extraction :=
| RDict (d : pydict json)
| RObject (e : ExtractionResult).

(** Python's truth value, for [x or default]. *)
Definition truthy (v : json) : bool :=
  match v with
  | JNull => false
  | JBool b => b
  | JInt z => negb (bool_decide (z = 0%Z))
  | JFloat (FFinite r) => negb (bool_decide (r = "0.0" ∨ r = "-0.0"))
  | JFloat _ => true
  | JStr s => negb (bool_decide (s = ""))
  | JList l => negb (bool_decide (l = []))
  | JDict d => negb (bool_decide (d = []))
  end.

Definition py_or (v d : json) : json := if truthy v then v else d.

(** [v.items()]: only a [dict] has it. *)
Definition items (v : json) : py_exn + pydict json :=
  match v with
  | JDict d => inr d
  | _ => inl AttributeError
  end.

Fixpoint chars (s : string) : list json :=
  match s with
  | EmptyString => []
  | String c s' => JStr (String c EmptyString) :: chars s'
  end.

(** [for x in v]: a list gives its elements, a [dict] its keys, a [str]
    its characters; the scalars are not iterable. *)
Definition iterate (v : json) : py_exn + list json :=
  match v with
  | JList l => inr l
  | JDict d => inr (JStr <$> dict_keys d)
  | JStr s => inr (chars s)
  | _ => inl TypeError
  end.

Section worker.
Variable repr_str : string → string.

(** The rows the store's writer prints for a dictionary of any values:
    [None] as the empty field, a [str] as itself, the rest through [str]. *)
#[local] Instance csv_text_json : CsvText json :=
  {| csv_text := stringify_worker repr_str; of_str := JStr |}.

(** Lines 395-400: one transaction to one flat row. *)
Definition flatten_tx (summary tx : json) : py_exn + Row :=
  s ←! (items summary);
  let flat := foldl (λ flat kv, dict_set flat ("summary_" +:+ kv.1)
                                  (stringify_worker repr_str kv.2)) [] s in
  t ←! (items tx);
  inr (foldl (λ flat kv, dict_set flat kv.1 (stringify_worker repr_str kv.2)) flat t).

(** The call the worker ends with. *)
Inductive save :=
| SaveMany (flat_rows : list Row)     (* sync_header_and_append_many *)
| SaveOne (flat : Row).               (* sync_header_and_append *)

(** Lines 390-411 of [_run_save_worker]. *)
Definition worker_save (result : extraction) : py_exn + save :=
  match result with
  | RDict d =>
      if bool_decide ("transactions" ∈ dict_keys d)
         && bool_decide ("summary" ∈ dict_keys d) then
        let summary := py_or (default (JDict []) (dict_get d "summary")) (JDict []) in
        let txs := py_or (default (JList []) (dict_get d "transactions")) (JList []) in
        txl ←! (iterate txs);
        flat_rows ←! (exn_map (flatten_tx summary) txl);
        match flat_rows with
        | _ :: _ => inr (SaveMany flat_rows)
        | [] =>
            s ←! (items summary);
            inr (SaveOne (foldl (λ flat kv, dict_set flat ("summary_" +:+ kv.1)
                                              (stringify_worker repr_str kv.2)) [] s))
        end
      else inr (SaveOne (prod_map id csv_text <$> d))
  | RObject e => inr (SaveOne (prod_map id csv_text <$> asdict e))
  end.

(** The rows a result is flattened to. *)
Definition flatten (result : extraction) : py_exn + list Row :=
  s ←! (worker_save result);
  inr (match s with SaveMany flat_rows => flat_rows | SaveOne flat => [flat] end).

End worker.

(** The two structured results of the spec's flattening properties. *)
Definition structured_two : extraction :=
  RDict [("summary", JDict [("a", JStr "1")]);
         ("transactions", JList [JDict [("b", JStr "2")]; JDict [("b", JStr "3")]])].


(** The row of a single-row append is a dictionary: each key once. *)
Definition op_valid (op : store_op) : Prop :=
  match op with
  | Append row => NoDup (dict_keys row)
  | _ => True
  end.



(** The call of the store the worker ends with (lines 403, 407, 409, 411). *)
Definition save_op (s : save) : store_op :=
  match s with
  | SaveMany flat_rows => AppendMany flat_rows
  | SaveOne flat => Append flat
  end.

(** The extraction's result as the worker receives it: the normalised
    row, a [dict] whose values are all [str]. *)
Definition as_result (normalized : Row) : extraction :=
  RDict (prod_map id JStr <$> normalized).

(** ** Reading the model's answer

    [parse_json_lenient], lines 133-146.  [str.find] and [str.rfind] are
    taken at a needle of one character, as the code calls them; [None]
    stands for their [-1]. *)

Definition lbrace : Ascii.ascii := Ascii.ascii_of_nat 123.
Definition rbrace : Ascii.ascii := Ascii.ascii_of_nat 125.

Fixpoint str_find (c : Ascii.ascii) (s : string) : option nat :=
  match s with
  | EmptyString => None
  | String a s' => if decide (a = c) then Some 0 else S <$> str_find c s'
  end.

Fixpoint str_rfind (c : Ascii.ascii) (s : string) : option nat :=
  match s with
  | EmptyString => None
  | String a s' =>
      match str_rfind c s' with
      | Some i => Some (S i)
      | None => if decide (a = c) then Some 0 else None
      end
  end.

(** [s[start:stop]] for [start ≤ stop] *)
Definition slice (start stop : nat) (s : string) : string :=
  String.substring start (stop - start) s.

Section json_text.
(** [json.loads] is the library's parser; [None] when it raises. *)
Variable loads : string → option json.

Definition parse_json_lenient (text : string) : json :=
  match loads text with
  | Some v => v
  | None =>
      match str_find lbrace text, str_rfind rbrace text with
      | Some start, Some end_ =>
          if decide (start < end_)
          then default (JDict []) (loads (slice start (end_ + 1) text))
          else JDict []
      | _, _ => JDict []
      end
  end.

End json_text.

(** A stand-in for [json.loads] in examples: it accepts the text [{}] and
    nothing else. *)
Definition loads_empty_object (s : string) : option json :=
  if decide (s = "{}") then Some (JDict []) else None.

(** ** The table of the window

    [_load_data_table], lines 481-507, without the widget: the headings
    it sets and the lines it inserts.  A field of a line is a [str] or
    [None]. *)

(** [[row.get(h, "") for h in headers]], line 504 *)
Definition table_values (headers : list string) (row : ReaderRow) : list (option string) :=
  (λ h, default (Some "") (dict_get (rr_named row) h)) <$> headers.

(** [None] when there is no file: the table stays empty. *)
Definition load_data_table (fs : filesystem) (csv_path : string)
    : option (list string * list (list (option string))) :=
  f ← fs !! csv_path;
  Some (fieldnames_of f, table_values (fieldnames_of f) <$> DictReader_rows f).

(** A table whose records all have the width of the header. *)
Definition full_table (f : csv_file) : Prop :=
  NoDup (fieldnames_of f) ∧
  Forall (λ r, length r = length (fieldnames_of f)) (tail f).

(** * Facts and theorems *)

(** ** Facts about dictionaries *)

Section pydict_facts.
Context {V : Type}.
Implicit Types (d : pydict V) (k : string) (v : V).

Lemma dict_get_set_eq d k v : dict_get (dict_set d k v) k = Some v.
Proof.
  induction d as [|[k' v'] d IH]; simpl.
  - by rewrite decide_True.
  - destruct (decide (k' = k)) as [->|Hne]; simpl.
    + by rewrite decide_True.
    + by rewrite decide_False.
Qed.

Lemma dict_get_set_ne d k k' v :
  k ≠ k' → dict_get (dict_set d k v) k' = dict_get d k'.
Proof.
  intros Hne. induction d as [|[k0 v0] d IH]; simpl.
  - by rewrite decide_False.
  - destruct (decide (k0 = k)) as [->|Hne0]; simpl.
    + by rewrite !decide_False.
    + by rewrite IH.
Qed.

Lemma dict_get_None d k : dict_get d k = None ↔ k ∉ dict_keys d.
Proof.
  unfold dict_keys. induction d as [|[k0 v0] d IH]; simpl.
  - split; [intros _; apply not_elem_of_nil | done].
  - rewrite not_elem_of_cons. destruct (decide (k0 = k)) as [->|Hne].
    + split; [done | by intros [? _]].
    + rewrite IH. split; [by intros ?; split; [congruence|] | by intros [_ ?]].
Qed.

Lemma dict_keys_set d k v :
  dict_keys (dict_set d k v) =
    if decide (k ∈ dict_keys d) then dict_keys d else dict_keys d ++ [k].
Proof.
  unfold dict_keys. induction d as [|[k0 v0] d IH].
  - simpl. destruct (decide (k ∈ [])) as [Hin|]; [|done].
    by apply not_elem_of_nil in Hin.
  - cbn [dict_set]. destruct (decide (k0 = k)) as [->|Hne].
    + rewrite !fmap_cons. simpl. rewrite decide_True; [done | left].
    + rewrite !fmap_cons, IH. simpl.
      destruct (decide (k ∈ d.*1)) as [Hin|Hnin].
      * rewrite decide_True; [done | by right].
      * rewrite decide_False; [done |].
        rewrite not_elem_of_cons. naive_solver.
Qed.

(** Assigning a run of keys: the last assignment to a key wins, the
    other keys keep what they had. *)
Lemma dict_get_foldl_set {A} (key : A → string) (val : A → V) (l : list A) d k :
  dict_get (foldl (λ d x, dict_set d (key x) (val x)) d l) k =
    match last (filter (λ x, key x = k) l) with
    | Some x => Some (val x)
    | None => dict_get d k
    end.
Proof.
  revert d. induction l as [|x l IH]; intros d; simpl; [done |].
  rewrite IH, filter_cons. destruct (decide (key x = k)) as [<-|Hne].
  - destruct (filter _ l) as [|y l'] eqn:Hf; simpl.
    + apply dict_get_set_eq.
    + destruct (last (y :: l')) eqn:Hl; [done |].
      by apply last_None in Hl.
  - destruct (last _); [done |]. by apply dict_get_set_ne.
Qed.

Lemma dict_keys_foldl_set {A} (key : A → string) (val : A → V) (l : list A) d :
  Forall (λ k, k ∈ dict_keys d ++ (key <$> l))
         (dict_keys (foldl (λ d x, dict_set d (key x) (val x)) d l)).
Proof.
  revert d. induction l as [|x l IH]; intros d; simpl.
  - rewrite app_nil_r. by apply Forall_forall.
  - eapply Forall_impl; [apply IH |]. intros k. simpl.
    rewrite dict_keys_set, !elem_of_app, elem_of_cons.
    destruct (decide (key x ∈ dict_keys d)).
    + naive_solver.
    + rewrite elem_of_app, list_elem_of_singleton. naive_solver.
Qed.

Lemma dict_get_comp (ks : list string) (f : string → V) k :
  dict_get (dict_comp ks f) k = if decide (k ∈ ks) then Some (f k) else None.
Proof.
  unfold dict_comp.
  etrans; [apply (dict_get_foldl_set id f ks [] k) |]. simpl.
  destruct (last (filter (λ x, x = k) ks)) as [x|] eqn:Hl.
  - apply last_Some_elem_of, list_elem_of_filter in Hl as [Hx Hin].
    subst x. by rewrite decide_True.
  - apply last_None in Hl. rewrite decide_False; [done |].
    intros Hin. assert (k ∈ filter (λ x, x = k) ks) as Hk
      by by apply list_elem_of_filter.
    rewrite Hl in Hk. by apply not_elem_of_nil in Hk.
Qed.

Lemma dict_keys_comp (ks : list string) (f : string → V) :
  Forall (λ k, k ∈ ks) (dict_keys (dict_comp ks f)).
Proof.
  unfold dict_comp.
  eapply Forall_impl; [apply (dict_keys_foldl_set id f ks []) |].
  intros k. simpl. by rewrite list_fmap_id.
Qed.

End pydict_facts.

(** ** What the writer prints *)

Lemma dict_to_list_comp `{CsvText V} (fields : list string) (f : string → V) :
  dict_to_list fields (dict_comp fields f) = inr ((λ k, csv_text (f k)) <$> fields).
Proof.
  unfold dict_to_list. rewrite decide_True by apply dict_keys_comp.
  f_equal. apply Forall_fmap_ext_1, Forall_forall. intros k Hk.
  rewrite dict_get_comp. by rewrite decide_True.
Qed.

Lemma dict_to_list_project_row fields r :
  dict_to_list fields (project_row fields r) = inr (render fields r).
Proof. unfold project_row. by rewrite dict_to_list_comp. Qed.

Lemma dict_to_list_project_reader_row fields r :
  dict_to_list fields (project_reader_row fields r) = inr (render_reader fields r).
Proof.
  unfold project_reader_row. rewrite dict_to_list_comp. f_equal.
  apply list_fmap_ext. intros _ k _. simpl.
  by destruct (dict_get (rr_named r) k) as [[s|]|].
Qed.

Lemma write_rows_ok path (rs : list record) :
  write_rows path (inr <$> rs) = Outcome (WriteRow path <$> rs) (inr ()).
Proof. induction rs as [|r rs IH]; csimpl; [done |]. by rewrite IH. Qed.

(** ** Facts about the file actions *)

Lemma io_run_writes (fs : filesystem) p f (rs : list record) :
  fs !! p = Some f →
  io_run fs (WriteRow p <$> rs) = <[p := f ++ rs]> fs.
Proof.
  revert fs f. induction rs as [|r rs IH]; intros fs f Hf; simpl.
  - rewrite app_nil_r. by rewrite insert_id.
  - rewrite (IH _ (f ++ [r])).
    2:{ by rewrite lookup_alter_eq, Hf. }
    rewrite <-app_assoc. simpl. apply map_eq. intros q.
    destruct (decide (p = q)) as [->|Hne].
    + by rewrite !lookup_insert_eq.
    + by rewrite !lookup_insert_ne, lookup_alter_ne.
Qed.

Lemma io_run_rewrite (fs : filesystem) p (rs : list record) :
  io_run fs (OpenW p :: (WriteRow p <$> rs)) = <[p := rs]> fs.
Proof.
  simpl. erewrite io_run_writes by apply lookup_insert_eq.
  by rewrite insert_insert_eq.
Qed.

Lemma io_run_append (fs : filesystem) p f (rs : list record) :
  fs !! p = Some f →
  io_run fs (OpenA p :: (WriteRow p <$> rs)) = <[p := f ++ rs]> fs.
Proof. intros Hf. simpl. rewrite Hf. by apply io_run_writes. Qed.

Lemma io_run_other (fs : filesystem) t p q :
  Forall (λ a, io_path a = p) t → p ≠ q → io_run fs t !! q = fs !! q.
Proof.
  intros Ht Hpq. revert fs. induction Ht as [|a t Ha _ IH]; intros fs; simpl; [done |].
  rewrite IH. destruct a as [p'|p'|p' r]; simpl in *; subst p'.
  - by rewrite lookup_insert_ne.
  - destruct (fs !! p); [done | by rewrite lookup_insert_ne].
  - by rewrite lookup_alter_ne.
Qed.

(** ** Facts about the header union *)

Lemma union_fields_app old keys :
  ∃ new, union_fields old keys = old ++ new ∧ Forall (λ k, k ∈ keys) new.
Proof.
  unfold union_fields. revert old.
  induction keys as [|k keys IH]; intros old; simpl.
  - exists []. by rewrite app_nil_r.
  - destruct (decide (k ∈ old)).
    + destruct (IH old) as (new & -> & Hnew). exists new. split; [done |].
      eapply Forall_impl; [done |]. intros ??. by right.
    + destruct (IH (old ++ [k])) as (new & -> & Hnew). exists (k :: new).
      split; [by rewrite <-app_assoc |].
      constructor; [left |]. eapply Forall_impl; [done |]. intros ??. by right.
Qed.

Lemma union_fields_prefix old keys : old `prefix_of` union_fields old keys.
Proof. destruct (union_fields_app old keys) as (new & -> & _). by exists new. Qed.


(** ** What [DictReader] hands out for a record no longer than the header *)

Lemma last_filter_Some {A} (P : A → Prop) `{∀ x, Decision (P x)} (l : list A) x :
  last (filter P l) = Some x → x ∈ l ∧ P x.
Proof.
  intros Hl. apply last_Some_elem_of, list_elem_of_filter in Hl. tauto.
Qed.

Lemma last_filter_None {A} (P : A → Prop) `{∀ x, Decision (P x)} (l : list A) :
  last (filter P l) = None → ∀ x, x ∈ l → ¬ P x.
Proof.
  intros Hl x Hx HP. apply last_None in Hl.
  assert (x ∈ filter P l) as Hin by by apply list_elem_of_filter.
  rewrite Hl in Hin. by apply not_elem_of_nil in Hin.
Qed.

Lemma reader_row_rest fieldnames r :
  length r ≤ length fieldnames → rr_rest (reader_row fieldnames r) = None.
Proof. intros Hle. unfold reader_row. rewrite decide_False by lia. done. Qed.

Lemma reader_row_get fieldnames r i k :
  NoDup fieldnames → length r ≤ length fieldnames →
  fieldnames !! i = Some k →
  dict_get (rr_named (reader_row fieldnames r)) k = Some (r !! i).
Proof.
  intros Hnd Hle Hi. unfold reader_row. rewrite decide_False by lia. simpl.
  rewrite (dict_get_foldl_set id (λ _, None)).
  rewrite (dict_get_foldl_set fst (λ kv, Some kv.2)). simpl.
  destruct (last (filter (λ x, x = k) (drop (length r) fieldnames)))
    as [k'|] eqn:Hd.
  - apply last_filter_Some in Hd as [Hin Heq]. simpl in Heq. subst k'.
    apply list_elem_of_lookup in Hin as [j Hj]. rewrite lookup_drop in Hj.
    assert (length r + j = i) as <- by (eapply NoDup_lookup; eauto).
    by rewrite lookup_ge_None_2 by lia.
  - assert (i < length r) as Hlt.
    { destruct (decide (i < length r)) as [|Hge]; [done |].
      exfalso. eapply (last_filter_None _ _ Hd k); [| done].
      apply list_elem_of_lookup. exists (i - length r).
      rewrite lookup_drop. by replace (length r + (i - length r)) with i by lia. }
    destruct (lookup_lt_is_Some_2 r i Hlt) as [s Hs]. rewrite Hs.
    destruct (last (filter (λ kv, kv.1 = k) (zip fieldnames r))) as [[k' s']|] eqn:Hz.
    + apply last_filter_Some in Hz as [Hin Hk]. simpl in Hk. subst k'.
      apply list_elem_of_lookup in Hin as [j Hj].
      apply lookup_zip_with_Some in Hj as (k' & s'' & Heq & Hkj & Hsj).
      injection Heq as <- <-.
      assert (j = i) as -> by (eapply NoDup_lookup; eauto).
      simpl. congruence.
    + exfalso. eapply (last_filter_None _ _ Hz (k, s)); [| done].
      apply list_elem_of_lookup. exists i.
      apply lookup_zip_with_Some. eauto.
Qed.

Lemma reader_row_get_None fieldnames r k :
  length r ≤ length fieldnames → k ∉ fieldnames →
  dict_get (rr_named (reader_row fieldnames r)) k = None.
Proof.
  intros Hle Hk. unfold reader_row. rewrite decide_False by lia. simpl.
  rewrite (dict_get_foldl_set id (λ _, None)).
  rewrite (dict_get_foldl_set fst (λ kv, Some kv.2)). simpl.
  destruct (last (filter (λ x, x = k) (drop (length r) fieldnames)))
    as [k'|] eqn:Hd.
  - apply last_filter_Some in Hd as [Hin Heq]. simpl in Heq. subst k'.
    destruct Hk. apply list_elem_of_lookup in Hin as [j Hj].
    rewrite lookup_drop in Hj. by eapply list_elem_of_lookup_2.
  - destruct (last (filter (λ kv, kv.1 = k) (zip fieldnames r))) as [[k' s']|] eqn:Hz;
      [| done].
    apply last_filter_Some in Hz as [Hin Heq]. simpl in Heq. subst k'.
    destruct Hk. apply elem_of_zip_l in Hin. done.
Qed.

(** Re-rendering such a row against a header that extends its own gives
    the record back, filled with empty fields. *)
Lemma render_reader_row fieldnames new_fields r :
  NoDup new_fields → fieldnames `prefix_of` new_fields →
  length r ≤ length fieldnames →
  render_reader new_fields (reader_row fieldnames r) = pad (length new_fields) r.
Proof.
  intros Hnd [extra ->] Hle. unfold render_reader, pad.
  apply NoDup_app in Hnd as (Hnd & Hdisj & _).
  rewrite length_app. rewrite take_ge by lia.
  apply list_eq. intros i. rewrite list_lookup_fmap.
  destruct (decide (i < length fieldnames)) as [Hlt|Hge].
  - destruct (lookup_lt_is_Some_2 fieldnames i Hlt) as [k Hk].
    rewrite lookup_app_l, Hk by done. simpl.
    rewrite (reader_row_get _ _ i) by done.
    destruct (decide (i < length r)) as [Hr|Hr].
    + destruct (lookup_lt_is_Some_2 r i Hr) as [s Hs].
      by rewrite Hs, lookup_app_l, Hs.
    + rewrite lookup_ge_None_2 by lia.
      rewrite lookup_app_r by lia. symmetry. apply lookup_replicate_2. lia.
  - rewrite lookup_app_r by lia.
    destruct (extra !! (i - length fieldnames)) as [k|] eqn:Hk; simpl.
    + rewrite reader_row_get_None; [| done |].
      * rewrite lookup_app_r by lia. symmetry. apply lookup_replicate_2.
        apply lookup_lt_Some in Hk. lia.
      * intros Hin. eapply Hdisj; [done |]. by eapply list_elem_of_lookup_2.
    + symmetry. apply lookup_ge_None_2. rewrite length_app, length_replicate.
      apply lookup_ge_None_1 in Hk. lia.
Qed.

(** ** The operations in closed form *)

Lemma write_rows_rendered path new_fields (existing : list ReaderRow) (rows : list Row) :
  write_rows path
    (((λ r, dict_to_list new_fields (project_reader_row new_fields r)) <$> existing)
     ++ ((λ r, dict_to_list new_fields (project_row new_fields r)) <$> rows)) =
  Outcome (WriteRow path <$> (render_reader new_fields <$> existing)
                              ++ (render new_fields <$> rows)) (inr ()).
Proof.
  rewrite <-write_rows_ok. f_equal. rewrite fmap_app, <-!list_fmap_compose.
  f_equal; apply list_fmap_ext; intros _ r _; simpl.
  - apply dict_to_list_project_reader_row.
  - apply dict_to_list_project_row.
Qed.

Lemma dict_to_list_own_keys (row : Row) :
  dict_to_list (dict_keys row) row = inr (render (dict_keys row) row).
Proof.
  unfold dict_to_list. rewrite decide_True; [done |]. by apply Forall_forall.
Qed.

Lemma append_row_to_csv_eq fs p row :
  append_row_to_csv fs p row =
    Outcome (OpenA p :: (if isfile fs p then [] else [WriteRow p (dict_keys row)])
                     ++ [WriteRow p (render (dict_keys row) row)]) (inr ()).
Proof. unfold append_row_to_csv. by rewrite dict_to_list_own_keys. Qed.

Lemma sync_header_and_append_eq fs p row :
  sync_header_and_append fs p row =
    match fs !! p with
    | None => append_row_to_csv fs p row
    | Some f =>
        let new_fields := union_fields (fieldnames_of f) (dict_keys row) in
        if decide (new_fields = fieldnames_of f) then
          Outcome [OpenA p; WriteRow p (render new_fields row)] (inr ())
        else
          Outcome (OpenW p :: (WriteRow p <$> rewritten new_fields f [row])) (inr ())
    end.
Proof.
  unfold sync_header_and_append. destruct (fs !! p) as [f|]; [| done]. simpl.
  destruct (decide _) as [Heq|Hne].
  - by rewrite dict_to_list_project_row.
  - change [dict_to_list ?nf (project_row ?nf' row)]
      with ((λ r, dict_to_list nf (project_row nf' r)) <$> [row]).
    by rewrite write_rows_rendered.
Qed.

(** ** Set iteration and the multi-row append *)

Section set_order_facts.
Variable slot : string → nat.

Lemma slot_insert_elem x y l : y ∈ slot_insert slot x l ↔ y = x ∨ y ∈ l.
Proof.
  induction l as [|z l IH]; simpl.
  - rewrite list_elem_of_singleton, elem_of_nil. tauto.
  - destruct (decide _); rewrite !elem_of_cons; [rewrite IH |]; tauto.
Qed.

Lemma slot_insert_NoDup x l : x ∉ l → NoDup l → NoDup (slot_insert slot x l).
Proof.
  induction l as [|z l IH]; simpl; intros Hx Hnd.
  - apply NoDup_singleton.
  - destruct (decide _).
    + apply not_elem_of_cons in Hx as [Hxz Hx]. apply NoDup_cons in Hnd as [Hz Hnd].
      apply NoDup_cons. split; [| by apply IH].
      rewrite slot_insert_elem. intros [->|?]; done.
    + by apply NoDup_cons.
Qed.

Lemma set_iter_foldl_elem (l acc : list string) y :
  y ∈ foldl (λ acc x, slot_insert slot x acc) acc l ↔ y ∈ acc ∨ y ∈ l.
Proof.
  revert acc. induction l as [|x l IH]; intros acc; simpl.
  - rewrite elem_of_nil. tauto.
  - rewrite IH, slot_insert_elem, elem_of_cons. tauto.
Qed.

Lemma set_iter_foldl_NoDup (l acc : list string) :
  NoDup acc → NoDup l → (∀ x, x ∈ l → x ∉ acc) →
  NoDup (foldl (λ acc x, slot_insert slot x acc) acc l).
Proof.
  revert acc. induction l as [|x l IH]; intros acc Hacc Hl Hdisj; simpl; [done |].
  apply NoDup_cons in Hl as [Hx Hl]. apply IH; [| done |].
  - apply slot_insert_NoDup; [apply Hdisj; left | done].
  - intros y Hy. rewrite slot_insert_elem. intros [->|Hacc']; [done |].
    by eapply Hdisj; [right |].
Qed.

(** A set holds each element once, whatever the order. *)
Lemma set_iter_elem l y : y ∈ set_iter slot l ↔ y ∈ l.
Proof.
  unfold set_iter. rewrite set_iter_foldl_elem, elem_of_nil, elem_of_remove_dups.
  tauto.
Qed.

Lemma set_iter_NoDup l : NoDup (set_iter slot l).
Proof.
  apply set_iter_foldl_NoDup;
    [apply NoDup_nil_2 | apply NoDup_remove_dups |].
  intros ? _. apply not_elem_of_nil.
Qed.

Lemma sync_header_and_append_many_eq fs p rows :
  sync_header_and_append_many slot fs p rows =
    match fs !! p with
    | None =>
        match rows with
        | [] => Outcome [] (inr ())
        | _ =>
            let fieldnames := set_iter slot (concat (dict_keys <$> rows)) in
            Outcome (OpenW p :: (WriteRow p <$> fieldnames :: (render fieldnames <$> rows)))
                    (inr ())
        end
    | Some f =>
        let old_fields := fieldnames_of f in
        let new_fields :=
          old_fields ++ filter (λ k, k ∉ old_fields)
                          (set_iter slot (old_fields ++ concat (dict_keys <$> rows))) in
        Outcome (OpenW p :: (WriteRow p <$> rewritten new_fields f rows)) (inr ())
    end.
Proof.
  unfold sync_header_and_append_many. destruct (fs !! p) as [f|]; simpl.
  - by rewrite write_rows_rendered.
  - destruct rows as [|r rows]; [done |].
    pose proof (write_rows_rendered p
      (set_iter slot (concat (dict_keys <$> r :: rows))) [] (r :: rows)) as Hw.
    simpl in Hw. simpl. by rewrite Hw.
Qed.

End set_order_facts.

(** ** Padding and the rows of a table *)

Lemma pad_length n r : length (pad n r) = n.
Proof.
  unfold pad. rewrite length_app, length_take, length_replicate. lia.
Qed.

Lemma pad_id n r : length r = n → pad n r = r.
Proof.
  intros <-. unfold pad. rewrite take_ge by lia.
  rewrite Nat.sub_diag. simpl. by rewrite app_nil_r.
Qed.

Lemma pad_pad n r : pad n (pad n r) = pad n r.
Proof. apply pad_id, pad_length. Qed.

Lemma pad_not_blank n r : 0 < n → is_blank (pad n r) = false.
Proof.
  intros Hn. destruct (pad n r) eqn:Hp; [| done].
  apply (f_equal length) in Hp. rewrite pad_length in Hp. simpl in Hp. lia.
Qed.

(** The rows [DictReader] gives for a well-formed file print back as the
    rows of its table, against its own header or against a longer one. *)
Lemma render_reader_rows f new_fields :
  wf_table f → NoDup new_fields → fieldnames_of f `prefix_of` new_fields →
  render_reader new_fields <$> DictReader_rows f =
    pad (length new_fields) <$> data_records f.
Proof.
  intros [Hnd Hlen] Hnd' Hpre. unfold DictReader_rows.
  rewrite <-list_fmap_compose. apply Forall_fmap_ext_1.
  apply Forall_forall. intros r Hr. simpl.
  apply render_reader_row; [done.. |].
  apply list_elem_of_filter in Hr as [_ Hr].
  by eapply Forall_forall in Hlen.
Qed.

Lemma filter_not_blank_padded n (rs : list record) :
  0 < n → filter (λ r, is_blank r = false) (pad n <$> rs) = pad n <$> rs.
Proof.
  intros Hn. induction rs as [|r rs IH]; [done |]. csimpl.
  rewrite filter_cons, decide_True by by apply pad_not_blank.
  by rewrite IH.
Qed.

Lemma data_records_cons_padded h n (rs : list record) :
  0 < n → data_records (h :: (pad n <$> rs)) = pad n <$> rs.
Proof. apply filter_not_blank_padded. Qed.

Lemma wf_table_no_columns f :
  wf_table f → fieldnames_of f = [] → data_records f = [].
Proof.
  intros [_ Hlen] Hh. unfold data_records. rewrite Hh in Hlen. simpl in Hlen.
  induction Hlen as [|r rs Hr _ IH]; [done |].
  rewrite filter_cons, decide_False; [done |].
  destruct r; [done | simpl in Hr; lia].
Qed.

(** ** The file an operation leaves *)

Lemma write_rows_trace path rs :
  ∃ recs, trace (write_rows path rs) = WriteRow path <$> recs.
Proof.
  induction rs as [|[e|r] rs [recs IH]].
  - by exists [].
  - by exists [].
  - exists (r :: recs). simpl. by rewrite IH.
Qed.

Lemma append_row_to_csv_shape fs p row :
  trace_shape p (trace (append_row_to_csv fs p row)).
Proof.
  rewrite append_row_to_csv_eq. simpl. destruct (isfile fs p).
  - apply (shape_append p [_]).
  - apply (shape_append p [_; _]).
Qed.

Lemma sync_header_and_append_shape fs p row :
  trace_shape p (trace (sync_header_and_append fs p row)).
Proof.
  rewrite sync_header_and_append_eq. destruct (fs !! p) as [f|].
  - cbv zeta. destruct (decide _); cbn [trace].
    + apply (shape_append p [_]).
    + apply shape_rewrite.
  - apply append_row_to_csv_shape.
Qed.

Lemma remove_last_row_from_csv_shape fs p :
  trace_shape p (trace (remove_last_row_from_csv fs p)).
Proof.
  unfold remove_last_row_from_csv. destruct (fs !! p) as [f|]; [| constructor].
  destruct (DictReader_rows f) as [|r rows]; [constructor |].
  cbn [trace].
  destruct (write_rows_trace p
    (reader_row_to_list (fieldnames_of f) <$> removelast (r :: rows))) as [recs ->].
  apply (shape_rewrite p (_ :: recs)).
Qed.

Lemma sync_header_and_append_many_shape slot fs p rows :
  trace_shape p (trace (sync_header_and_append_many slot fs p rows)).
Proof.
  rewrite sync_header_and_append_many_eq. destruct (fs !! p) as [f|].
  - apply shape_rewrite.
  - destruct rows; [constructor | apply shape_rewrite].
Qed.

Lemma trace_shape_path p t : trace_shape p t → Forall (λ a, io_path a = p) t.
Proof.
  intros [|recs|recs]; [constructor | |];
    (constructor; [done |]; apply Forall_fmap, Forall_forall; done).
Qed.


(** ** Headers along a sequence of operations *)

Section store_ops_facts.
Variable slot : string → nat.

Lemma op_trace_shape fs p op : trace_shape p (op_trace slot fs p op).
Proof.
  destruct op; simpl.
  - apply sync_header_and_append_shape.
  - apply sync_header_and_append_many_shape.
  - apply remove_last_row_from_csv_shape.
Qed.






Lemma run_ops_snoc fs p ops op :
  run_ops slot fs p (ops ++ [op]) = run_op slot (run_ops slot fs p ops) p op.
Proof. unfold run_ops. by rewrite foldl_app. Qed.

End store_ops_facts.


(** ** Well-formed tables under rewriting and loading *)

Lemma removelast_fmap {A B} (g : A → B) (l : list A) :
  removelast (g <$> l) = g <$> removelast l.
Proof.
  induction l as [|x [|y l] IH]; [done.. |].
  change (g x :: removelast (g <$> y :: l) = g x :: (g <$> removelast (y :: l))).
  by rewrite IH.
Qed.


Lemma elem_of_removelast {A} (x : A) (l : list A) : x ∈ removelast l → x ∈ l.
Proof.
  induction l as [|y l IH]; [done |]. destruct l as [|z l].
  - simpl. by intros ?%elem_of_nil.
  - change (x ∈ y :: removelast (z :: l) → x ∈ y :: z :: l).
    rewrite !(elem_of_cons _ x y). intros [->|Hx]; [by left | right; by apply IH].
Qed.

Lemma reader_row_keys fieldnames r :
  Forall (λ k, k ∈ fieldnames) (dict_keys (rr_named (reader_row fieldnames r))).
Proof.
  unfold reader_row.
  pose proof (dict_keys_foldl_set (V:=option string) fst (λ kv, Some kv.2)
                (zip fieldnames r) []) as Hz.
  assert (Forall (λ k, k ∈ fieldnames)
            (dict_keys (foldl (λ d kv, dict_set d kv.1 (Some kv.2)) []
                          (zip fieldnames r)))) as Hd.
  { eapply Forall_impl; [apply Hz |]. intros k. simpl.
    intros Hk. apply list_elem_of_fmap in Hk as ([k' s] & -> & Hin).
    by apply elem_of_zip_l in Hin. }
  destruct (decide _); simpl; [done |].
  pose proof (dict_keys_foldl_set (V:=option string) id (λ _, None)
                (drop (length r) fieldnames)
                (foldl (λ d kv, dict_set d kv.1 (Some kv.2)) [] (zip fieldnames r)))
    as Hn.
  apply Forall_forall. intros k Hk.
  eapply Forall_forall in Hn; [| exact Hk].
  apply elem_of_app in Hn as [Hn|Hn].
  - by eapply Forall_forall in Hd.
  - rewrite list_fmap_id in Hn. apply list_elem_of_lookup in Hn as [j Hj].
    rewrite lookup_drop in Hj. by eapply list_elem_of_lookup_2.
Qed.

(** Rows that come straight from the reader, written back by [writerows]. *)
Lemma reader_row_to_list_wf fieldnames r :
  NoDup fieldnames → length r ≤ length fieldnames →
  reader_row_to_list fieldnames (reader_row fieldnames r) =
    inr (pad (length fieldnames) r).
Proof.
  intros Hnd Hle. unfold reader_row_to_list. rewrite reader_row_rest by done.
  unfold dict_to_list. rewrite decide_True by apply reader_row_keys.
  f_equal. rewrite <-(render_reader_row fieldnames fieldnames r) by done.
  apply list_fmap_ext. intros _ k _.
  by destruct (dict_get _ k) as [[s|]|].
Qed.

Lemma DictReader_rows_nil f : DictReader_rows f = [] ↔ data_records f = [].
Proof.
  unfold DictReader_rows. split; [apply fmap_nil_inv | by intros ->].
Qed.

Lemma remove_last_row_from_csv_wf (fs : filesystem) p f :
  fs !! p = Some f → wf_table f →
  remove_last_row_from_csv fs p =
    match data_records f with
    | [] => Outcome [] (inr false)
    | _ => Outcome (OpenW p :: (WriteRow p <$>
                      fieldnames_of f :: removelast (table_rows f))) (inr true)
    end.
Proof.
  intros Hf [Hnd Hlen]. unfold remove_last_row_from_csv. rewrite Hf.
  destruct (DictReader_rows f) as [|r rows] eqn:Hrows.
  - apply DictReader_rows_nil in Hrows. by rewrite Hrows.
  - destruct (data_records f) as [|d ds] eqn:Hd.
    { by unfold DictReader_rows in Hrows; rewrite Hd in Hrows. }
    rewrite <-Hrows. unfold DictReader_rows.
    rewrite removelast_fmap, <-list_fmap_compose.
    assert ((reader_row_to_list (fieldnames_of f) ∘ reader_row (fieldnames_of f))
              <$> removelast (data_records f)
            = inr <$> removelast (table_rows f)) as ->.
    { unfold table_rows. rewrite removelast_fmap, <-list_fmap_compose.
      apply Forall_fmap_ext_1, Forall_forall. intros x Hx. simpl.
      apply reader_row_to_list_wf; [done |].
      apply elem_of_removelast in Hx as Hin.
      apply list_elem_of_filter in Hin as [_ Hin].
      by eapply Forall_forall in Hlen. }
    by rewrite write_rows_ok.
Qed.

Lemma blank_line_pad n r :
  r ≠ [] → length r ≤ n → blank_line r = false → blank_line (pad n r) = false.
Proof.
  intros Hr Hle Hb. destruct (decide (length r = n)) as [<-|Hne].
  - by rewrite pad_id.
  - unfold pad. rewrite take_ge by lia.
    destruct r as [|s r]; [done |]. simpl in *.
    destruct r as [|s' r]; simpl.
    + destruct n as [|[|n]]; [lia.. |]. done.
    + done.
Qed.

(** What the loader makes of a well-formed file, when it loads it. *)
Lemma read_csv_wf f t :
  wf_table f → read_csv f = Some (inr t) →
  t = table_of f ∧ fieldnames_of f ≠ [] ∧
  existsb blank_line f = false ∧ "" ∉ fieldnames_of f.
Proof.
  intros [Hnd Hlen] Hread. unfold read_csv in Hread.
  destruct (existsb blank_line f) eqn:Hb; [done |].
  destruct f as [|h tl]; [done |]. simpl in *.
  destruct h as [|c h].
  - exfalso. rewrite filter_cons, decide_False in Hread by done.
    assert (filter (λ r, is_blank r = false) tl = []) as Hnil.
    { clear -Hlen. induction Hlen as [|r rs Hr _ IH]; [done |].
      rewrite filter_cons, decide_False; [done |].
      destruct r; [done | simpl in Hr; lia]. }
    by rewrite Hnil in Hread.
  - rewrite filter_cons, decide_True in Hread by done.
    destruct (decide _) as [(_ & Hne & _)|]; [| done].
    injection Hread as <-. done.
Qed.

Lemma read_csv_padded h (rs : list record) :
  h ≠ [] → NoDup h → "" ∉ h → blank_line h = false →
  Forall (λ r, r ≠ [] ∧ length r ≤ length h ∧ blank_line r = false) rs →
  read_csv (h :: (pad (length h) <$> rs)) =
    Some (inr {| columns := h; data := pad (length h) <$> rs |}).
Proof.
  intros Hh Hnd Hne Hbh Hrs. unfold read_csv.
  assert (0 < length h) as Hlen by (destruct h; [done | simpl; lia]).
  assert (existsb blank_line (h :: (pad (length h) <$> rs)) = false) as ->.
  { simpl. rewrite Hbh. simpl. clear -Hrs.
    induction Hrs as [|r rs (Hr & Hle & Hb) _ IH]; [done |]. csimpl.
    by rewrite blank_line_pad, IH. }
  rewrite filter_cons, decide_True by by destruct h.
  rewrite filter_not_blank_padded by done.
  rewrite decide_True.
  - do 3 f_equal. rewrite <-list_fmap_compose.
    apply list_fmap_ext. intros _ r _. apply pad_pad.
  - split; [done |]. split; [done |].
    apply Forall_fmap, Forall_forall. intros r _. simpl. by rewrite pad_length.
Qed.

Lemma data_records_facts f :
  wf_table f → existsb blank_line f = false →
  Forall (λ r, r ≠ [] ∧ length r ≤ length (fieldnames_of f) ∧ blank_line r = false)
         (data_records f).
Proof.
  intros [_ Hlen] Hb. apply Forall_forall. intros r Hr.
  apply list_elem_of_filter in Hr as [Hnb Hin].
  split; [by destruct r |]. split; [by eapply Forall_forall in Hlen |].
  destruct (blank_line r) eqn:Hr; [| done].
  assert (existsb blank_line f = true) as Hex; [| congruence].
  apply existsb_exists. exists r. split; [| done].
  apply list_elem_of_In. destruct f; [done | by right].
Qed.

Lemma table_of_padded h (rs : list record) :
  h ≠ [] →
  table_of (h :: (pad (length h) <$> rs)) =
    {| columns := h; data := pad (length h) <$> rs |}.
Proof.
  intros Hh. assert (0 < length h) by (destruct h; [done | simpl; lia]).
  unfold table_of, table_rows. simpl fieldnames_of.
  rewrite data_records_cons_padded by done. f_equal.
  rewrite <-list_fmap_compose. apply list_fmap_ext. intros _ r _. apply pad_pad.
Qed.


Lemma scenario_fs_wf f : scenario_fs !! "captures.csv" = Some f → wf_table f.
Proof.
  unfold scenario_fs. rewrite lookup_singleton_eq. intros [= <-].
  apply (bool_decide_unpack _). by vm_compute.
Defined.


(** ** Appending without new columns *)

Lemma filter_none {A} (P : A → Prop) `{∀ x, Decision (P x)} (l : list A) :
  (∀ x, x ∈ l → ¬ P x) → filter P l = [].
Proof.
  intros Hl. destruct (filter P l) as [|x l'] eqn:Hf; [done |].
  assert (x ∈ filter P l) as Hx by (rewrite Hf; left).
  apply list_elem_of_filter in Hx as [HP Hx]. by destruct (Hl x Hx).
Qed.

Lemma elem_of_concat {A} (x : A) (ls : list (list A)) :
  x ∈ concat ls ↔ ∃ l, x ∈ l ∧ l ∈ ls.
Proof.
  induction ls as [|l ls IH]; simpl.
  - split; [by intros ?%elem_of_nil | by intros (? & _ & ?%elem_of_nil)].
  - rewrite elem_of_app, IH. split.
    + intros [Hx|(l' & Hx & Hl')]; [exists l; split; [done | left] |].
      exists l'. split; [done | by right].
    + intros (l' & Hx & [->|Hl']%elem_of_cons); [by left | right; eauto].
Qed.

Lemma many_new_fields_same slot old (rows : list Row) :
  Forall (λ r, Forall (λ k, k ∈ old) (dict_keys r)) rows →
  old ++ filter (λ k, k ∉ old) (set_iter slot (old ++ concat (dict_keys <$> rows)))
    = old.
Proof.
  intros Hrows. rewrite filter_none; [by rewrite app_nil_r |].
  intros k Hk Hnot. apply Hnot. apply set_iter_elem, elem_of_app in Hk as [Hk|Hk];
    [done |].
  apply elem_of_concat in Hk as (ks & Hk & Hks).
  apply list_elem_of_fmap in Hks as (r & -> & Hr).
  eapply Forall_forall in Hrows; [| done]. by eapply Forall_forall in Hrows.
Qed.

(** C10. Appending no rows to an existing, well-formed table: the file is
    written again, yet it keeps its header and stands for the same table;
    whatever [load_dataframe] made of it before, it makes of it afterwards. *)
Theorem append_many_nothing (slot : string → nat) (fs : filesystem) (p : string)
    (f : csv_file) :
  fs !! p = Some f → wf_table f →
  let o := sync_header_and_append_many slot fs p [] in
  result o = inr () ∧
  ∃ f', exec fs o = <[p := f']> fs ∧
        fieldnames_of f' = fieldnames_of f ∧
        table_of f' = table_of f ∧
        ∀ t, load_dataframe fs p = Some (inr t) →
             load_dataframe (exec fs o) p = Some (inr t).
Proof.
  intros Hf Hwf. cbv zeta. rewrite sync_header_and_append_many_eq, Hf. cbv zeta.
  rewrite many_new_fields_same by constructor. cbn [result]. split; [done |].
  exists (fieldnames_of f :: table_rows f). unfold exec. cbn [trace].
  rewrite io_run_rewrite. unfold rewritten.
  rewrite render_reader_rows; [| done | apply Hwf | done].
  rewrite app_nil_r. fold (table_rows f). split; [done |]. split; [done |].
  destruct (decide (fieldnames_of f = [])) as [Hh|Hh].
  - pose proof (wf_table_no_columns f Hwf Hh) as Hd.
    unfold table_of, table_rows. rewrite Hd, Hh. simpl. split; [done |].
    intros t Ht. unfold load_dataframe in Ht. rewrite Hf in Ht.
    by apply read_csv_wf in Ht as (_ & ? & _).
  - unfold table_rows at 1 2. rewrite table_of_padded by done. split; [done |].
    intros t Ht. unfold load_dataframe in *. rewrite Hf in Ht.
    rewrite lookup_insert_eq.
    apply read_csv_wf in Ht as (-> & _ & Hb & Hne); [| done].
    rewrite read_csv_padded; [done | done | apply Hwf | done | |].
    + destruct f as [|h tl]; [done |]. simpl in Hb.
      by apply orb_false_iff in Hb as [Hb _].
    + by apply data_records_facts.
Qed.

(** Appending nothing to the table of the spec's scenario. *)
Lemma append_many_nothing_witness :
  scenario_fs !! "captures.csv" = Some scenario_file ∧
  wf_table scenario_file ∧
  load_dataframe
    (exec scenario_fs
       (sync_header_and_append_many (λ _, 0) scenario_fs "captures.csv" []))
    "captures.csv"
  = Some (inr {| columns := ["a"; "b"; "c"];
                 data := [["1"; "2"; ""]; ["3"; ""; "4"]] |}).
Proof.
  assert (scenario_fs !! "captures.csv" = Some scenario_file) as Hf
    by apply lookup_singleton_eq.
  assert (wf_table scenario_file) as Hwf by by apply scenario_fs_wf.
  split; [exact Hf |]. split; [exact Hwf |].
  destruct (append_many_nothing (λ _, 0) scenario_fs "captures.csv" scenario_file
              Hf Hwf) as (_ & f' & _ & _ & _ & Hload).
  apply Hload. by vm_compute.
Defined.

(** ** I/O failures part-way *)

Lemma io_run_append_lookup (fs : filesystem) p (recs : list record) :
  io_run fs (OpenA p :: (WriteRow p <$> recs)) !! p
    = Some (default [] (fs !! p) ++ recs).
Proof.
  destruct (fs !! p) as [f|] eqn:Hf.
  - erewrite io_run_append by done. by rewrite lookup_insert_eq.
  - simpl. rewrite Hf. erewrite io_run_writes by apply lookup_insert_eq.
    by rewrite lookup_insert_eq.
Qed.



(** ** Appends whose keys the header already has *)


(** C1 at its failing input.  The file holds the header [a] and two rows,
    and the incoming row has the key [a] only.  The single-row append
    opens the file for appending and writes one record; the multi-row
    append, whatever the iteration order of its key set, opens the file
    for writing and writes header and old rows again. *)
Theorem append_many_always_rewrites (slot : string → nat) :
  Forall (λ k, k ∈ header_at small_fs "captures.csv") (dict_keys [("a", "3")]) ∧
  trace (sync_header_and_append small_fs "captures.csv" [("a", "3")])
    = [OpenA "captures.csv"; WriteRow "captures.csv" ["3"]] ∧
  trace (sync_header_and_append_many slot small_fs "captures.csv" [[("a", "3")]])
    = [OpenW "captures.csv"; WriteRow "captures.csv" ["a"];
       WriteRow "captures.csv" ["1"]; WriteRow "captures.csv" ["2"];
       WriteRow "captures.csv" ["3"]].
Proof.
  split; [by apply (bool_decide_unpack _); vm_compute |].
  split; [by vm_compute |].
  rewrite sync_header_and_append_many_eq.
  assert (small_fs !! "captures.csv" = Some [["a"]; ["1"]; ["2"]]) as ->
    by apply lookup_singleton_eq.
  cbv zeta. rewrite many_new_fields_same.
  - by vm_compute.
  - repeat constructor.
Qed.

(** ** Creating the table *)

(** C4 at its failing input.  No file, one row with the keys [a] then
    [b]: the header is the key set in iteration order, which is [a,b]
    under one salt and [b,a] under another. *)
Theorem fresh_header_order :
  exec ∅ (sync_header_and_append_many (λ _, 0) ∅ "captures.csv"
            [[("a", "1"); ("b", "2")]]) !! "captures.csv"
    = Some [["a"; "b"]; ["1"; "2"]] ∧
  exec ∅ (sync_header_and_append_many slot_b_first ∅ "captures.csv"
            [[("a", "1"); ("b", "2")]]) !! "captures.csv"
    = Some [["b"; "a"]; ["2"; "1"]].
Proof. split; by vm_compute. Qed.


(** ** Loading *)



(** A header that grew after the first row was written by hand. *)
Example load_short_row :
  load_dataframe {[ "captures.csv" := [["a"; "b"]; ["1"]; []; ["2"; "3"]] ]}
                 "captures.csv"
  = Some (inr {| columns := ["a"; "b"]; data := [["1"; ""]; ["2"; "3"]] |}).
Proof. by vm_compute. Qed.

(** ** Round trip *)

(** C8 at its failing input.  No file, and one row without any key, as
    the worker saves it when the model's answer holds no JSON object: by
    either append the file gets two blank lines, which the loader refuses
    as holding no columns and in which [DictReader] finds no row, so the
    row that was appended is not in what is loaded. *)
Theorem empty_row_not_loaded (slot : string → nat) :
  let many := sync_header_and_append_many slot ∅ "captures.csv" [[]] in
  let one := sync_header_and_append ∅ "captures.csv" [] in
  result many = inr () ∧ result one = inr () ∧
  exec ∅ many !! "captures.csv" = Some [[]; []] ∧
  exec ∅ one !! "captures.csv" = Some [[]; []] ∧
  load_dataframe (exec ∅ many) "captures.csv" = Some (inl EmptyDataError) ∧
  load_dataframe (exec ∅ one) "captures.csv" = Some (inl EmptyDataError) ∧
  DictReader_rows [[]; []] = [].
Proof. by vm_compute. Qed.

(** ** Flattening *)



(** Where the two agree: on everything that is neither a list nor a
    mapping, and there both print [None] as the empty string and a string
    as itself. *)
Lemma stringify_scalar (repr_str : string → string) (v : json) :
  (∀ l, v ≠ JList l) → (∀ d, v ≠ JDict d) →
  stringify_worker repr_str v = stringify_normalize repr_str v ∧
  (v = JNull → stringify_worker repr_str v = "") ∧
  (∀ s, v = JStr s → stringify_worker repr_str v = s).
Proof.
  intros Hl Hd. destruct v as [| | | |s|l|d]; try done.
  - split; [done |]. split; [done |]. by intros ? [= ->].
  - by destruct (Hl l).
  - by destruct (Hd d).
Qed.

(** The answer of C7 as the extraction really hands it over: normalised
    first, so that [summary] and [transactions] are JSON texts.  The
    worker then walks the characters of a string and fails on the first. *)
Lemma structured_after_normalize (repr_str : string → string) :
  let answer :=
    JDict [("summary", JDict [("a", JStr "1")]);
           ("transactions", JList [JDict [("b", JStr "2")]; JDict [("b", JStr "3")]])] in
  worker_save repr_str (RDict (prod_map id JStr <$> normalize repr_str answer))
    = inl AttributeError.
Proof. reflexivity. Qed.

(** ** Well-formed tables are all the store ever writes *)

Lemma union_fields_NoDup old keys : NoDup old → NoDup (union_fields old keys).
Proof.
  unfold union_fields. revert old.
  induction keys as [|k keys IH]; intros old Hold; simpl; [done |].
  destruct (decide (k ∈ old)); [by apply IH |].
  apply IH. apply NoDup_app. split; [done |]. split; [| apply NoDup_singleton].
  intros x Hx ->%list_elem_of_singleton. done.
Qed.

Lemma many_fields_NoDup slot old (ks : list string) :
  NoDup old → NoDup (old ++ filter (λ k, k ∉ old) (set_iter slot ks)).
Proof.
  intros Hold. apply NoDup_app. split; [done |]. split.
  - intros x Hx Hin. by apply list_elem_of_filter in Hin as [Hnot _].
  - apply NoDup_filter, set_iter_NoDup.
Qed.

Lemma render_length fields (r : Row) : length (render fields r) = length fields.
Proof. unfold render. by rewrite length_fmap. Qed.

Lemma rewritten_wf new_fields f (rows : list Row) :
  wf_table f → NoDup new_fields → fieldnames_of f `prefix_of` new_fields →
  rewritten new_fields f rows =
    new_fields :: (pad (length new_fields) <$> data_records f)
               ++ (render new_fields <$> rows).
Proof. intros Hwf Hnd Hpre. unfold rewritten. by rewrite render_reader_rows. Qed.

Lemma wf_table_cons h (rs : list record) :
  NoDup h → Forall (λ r, length r ≤ length h) rs → wf_table (h :: rs).
Proof. by split. Qed.

Lemma wf_table_written new_fields (old : list record) (rows : list Row) :
  NoDup new_fields →
  wf_table (new_fields :: (pad (length new_fields) <$> old)
                       ++ (render new_fields <$> rows)).
Proof.
  intros Hnd. apply wf_table_cons; [done |]. apply Forall_app. split.
  - apply Forall_fmap, Forall_forall. intros r _. simpl. by rewrite pad_length.
  - apply Forall_fmap, Forall_forall. intros r _. simpl. by rewrite render_length.
Qed.

Lemma run_op_wf slot (fs : filesystem) p op :
  (∀ f, fs !! p = Some f → wf_table f) → op_valid op →
  ∀ f', run_op slot fs p op !! p = Some f' → wf_table f'.
Proof.
  intros Hwf Hop f'. unfold run_op. destruct op as [row|rows|]; simpl.
  - rewrite sync_header_and_append_eq. destruct (fs !! p) as [f|] eqn:Hf.
    + specialize (Hwf f eq_refl). cbv zeta. destruct (decide _) as [Heq|Hne]; cbn [trace].
      * change (io_run fs [OpenA p; WriteRow p ?r])
          with (io_run fs (OpenA p :: (WriteRow p <$> [r]))).
        erewrite io_run_append by done. rewrite lookup_insert_eq. intros [= <-].
        rewrite Heq. destruct f as [|h tl]; simpl.
        { simpl in Heq. by apply wf_table_cons; [apply NoDup_nil_2 |]. }
        destruct Hwf as [Hnd Hlen]. simpl in *. apply wf_table_cons; [done |].
        apply Forall_app. split; [done |]. constructor; [| done].
        by rewrite render_length.
      * rewrite io_run_rewrite, lookup_insert_eq. intros [= <-].
        rewrite rewritten_wf;
          [| done | by apply union_fields_NoDup, Hwf | apply union_fields_prefix].
        apply wf_table_written. by apply union_fields_NoDup, Hwf.
    + rewrite append_row_to_csv_eq. unfold isfile.
      rewrite bool_decide_eq_false_2 by (rewrite Hf; by intros [? ?]).
      cbn [trace app].
      change (io_run fs (OpenA p :: [WriteRow p ?a; WriteRow p ?b]))
        with (io_run fs (OpenA p :: (WriteRow p <$> [a; b]))).
      rewrite io_run_append_lookup, Hf. simpl. intros [= <-].
      apply wf_table_cons; [done |]. constructor; [| done]. by rewrite render_length.
  - rewrite sync_header_and_append_many_eq. destruct (fs !! p) as [f|] eqn:Hf.
    + specialize (Hwf f eq_refl). cbv zeta. cbn [trace].
      rewrite io_run_rewrite, lookup_insert_eq. intros [= <-].
      rewrite rewritten_wf;
        [| done | by apply many_fields_NoDup, Hwf | by eexists].
      apply wf_table_written. by apply many_fields_NoDup, Hwf.
    + destruct rows as [|r rows]; cbn [trace].
      * simpl. by rewrite Hf.
      * cbv zeta. rewrite io_run_rewrite, lookup_insert_eq. intros [= <-].
        apply (wf_table_written _ [] (r :: rows)), set_iter_NoDup.
  - destruct (fs !! p) as [f|] eqn:Hf.
    + specialize (Hwf f eq_refl).
      rewrite (remove_last_row_from_csv_wf fs p f Hf Hwf).
      destruct (data_records f) as [|d ds] eqn:Hd; cbn [trace].
      * simpl. rewrite Hf. by intros [= <-].
      * rewrite io_run_rewrite, lookup_insert_eq. intros [= <-].
        apply wf_table_cons; [apply Hwf |].
        apply Forall_forall. intros r Hr%elem_of_removelast.
        unfold table_rows in Hr. apply list_elem_of_fmap in Hr as (r' & -> & _).
        by rewrite pad_length.
    + unfold remove_last_row_from_csv. rewrite Hf. simpl. by rewrite Hf.
Qed.

(** X5. Started on no file or on a well-formed one, the store keeps the
    file well-formed whatever it is asked to do. *)
Lemma run_ops_wf slot (fs : filesystem) p ops :
  (∀ f, fs !! p = Some f → wf_table f) → Forall op_valid ops →
  ∀ f', run_ops slot fs p ops !! p = Some f' → wf_table f'.
Proof.
  intros Hwf. induction ops as [|op ops IH] using rev_ind; intros Hops; [done |].
  apply Forall_app in Hops as [Hops Hop]. rewrite Forall_singleton in Hop.
  rewrite run_ops_snoc. apply run_op_wf; [| done].
  intros f. by apply IH.
Qed.

(** ** The round trip where it holds *)










(** ** The scenarios of the spec *)

(** Empty store; append [{a: 1, b: 2}]; append [{a: 3, c: 4}], which
    widens the header and rewrites the file; remove the last row. *)
Example scenario_appends :
  run_ops (λ _, 0) ∅ "captures.csv"
    [Append [("a", "1"); ("b", "2")]] !! "captures.csv"
    = Some [["a"; "b"]; ["1"; "2"]] ∧
  run_ops (λ _, 0) ∅ "captures.csv"
    [Append [("a", "1"); ("b", "2")]; Append [("a", "3"); ("c", "4")]] !! "captures.csv"
    = Some scenario_file ∧
  run_ops (λ _, 0) ∅ "captures.csv"
    [Append [("a", "1"); ("b", "2")]; Append [("a", "3"); ("c", "4")]; RemoveLast]
    !! "captures.csv"
    = Some [["a"; "b"; "c"]; ["1"; "2"; ""]].
Proof. repeat split; by vm_compute. Qed.

(** A flat answer is one row, its values as the writer prints them. *)
Example flatten_flat (repr_str : string → string) :
  flatten repr_str (RDict [("user_name", JStr "alice"); ("follower_count", JInt 10)])
    = inr [[("user_name", "alice"); ("follower_count", "10")]].
Proof. reflexivity. Qed.

(** An answer that holds no JSON object is the empty mapping, and the row
    saved for it has no key. *)
Example flatten_empty (repr_str : string → string) :
  normalize repr_str JNull = [] ∧
  worker_save repr_str (RDict []) = inr (SaveOne []).
Proof. split; reflexivity. Qed.


(** Outside the well-formed tables: a record with more fields than the
    header stops the removal with [ValueError] once the file is open, and
    the rows from it on are gone; the appends cut the surplus off. *)
Example long_record :
  let fs : filesystem := {[ "captures.csv" := [["a"]; ["1"; "x"]; ["2"]; ["3"]] ]} in
  ¬ wf_table [["a"]; ["1"; "x"]; ["2"]; ["3"]] ∧
  result (remove_last_row_from_csv fs "captures.csv") = inl ValueError ∧
  exec fs (remove_last_row_from_csv fs "captures.csv") !! "captures.csv"
    = Some [["a"]] ∧
  exec fs (sync_header_and_append_many (λ _, 0) fs "captures.csv" [])
    !! "captures.csv" = Some [["a"]; ["1"]; ["2"]; ["3"]].
Proof.
  cbv zeta. split; [| by vm_compute].
  intros [_ Hlen]. apply Forall_cons in Hlen as [Hlen _]. simpl in Hlen. lia.
Qed.

(** * More of the store *)

(** ** The file after an append to a well-formed table *)
















(** The two appends of the spec's scenario leave a well-formed table. *)
Lemma run_ops_wf_witness : wf_table scenario_file.
Proof.
  apply (run_ops_wf (λ _, 0) ∅ "captures.csv"
           [Append [("a", "1"); ("b", "2")]; Append [("a", "3"); ("c", "4")]]).
  - intros f Hf. by rewrite lookup_empty in Hf.
  - repeat constructor; apply (bool_decide_unpack _); by vm_compute.
  - by vm_compute.
Defined.

(** ** What no operation does *)

(** X6. No operation of the store touches a file at another path, and
    none removes the table file: a file that is there before a call is
    there after it. *)
Theorem run_op_frame (slot : string → nat) (fs : filesystem) (p : string)
    (op : store_op) :
  (∀ q, q = p ∨ run_op slot fs p op !! q = fs !! q) ∧
  (fs !! p = None ∨ is_Some (run_op slot fs p op !! p)).
Proof.
  pose proof (op_trace_shape slot fs p op) as Hshape. unfold run_op. split.
  - intros q. destruct (decide (q = p)) as [|Hq]; [by left | right].
    eapply io_run_other; [by apply trace_shape_path | done].
  - destruct (fs !! p) as [f|] eqn:Hf; [right | by left].
    destruct Hshape as [|recs|recs].
    + simpl. by rewrite Hf.
    + by rewrite io_run_rewrite, lookup_insert_eq.
    + by rewrite io_run_append_lookup.
Qed.

(** ** Undoing an append *)

Lemma removelast_snoc {A} (l : list A) (x : A) : removelast (l ++ [x]) = l.
Proof.
  induction l as [|y l IH]; [done |]. simpl.
  destruct (l ++ [x]) eqn:Hl; [by destruct l | by rewrite <-IH].
Qed.



(** ** Removing again and again *)

Lemma removelast_take {A} (l : list A) : removelast l = take (length l - 1) l.
Proof.
  induction l as [|x l IH] using rev_ind; [done |].
  rewrite removelast_snoc, length_app. simpl.
  rewrite take_app_le by lia. rewrite take_ge by lia. done.
Qed.

Lemma run_ops_cons slot (fs : filesystem) p op ops :
  run_ops slot fs p (op :: ops) = run_ops slot (run_op slot fs p op) p ops.
Proof. done. Qed.

(** X8. [n] removals in a row, on a well-formed table with [m] rows,
    leave the header and the first [m - n] rows; from the [m]-th on they
    change nothing, and the header-only file stays. *)
Theorem remove_last_repeated (slot : string → nat) (n : nat) (fs : filesystem)
    (p : string) (f : csv_file) :
  fs !! p = Some f → wf_table f →
  ∃ f', run_ops slot fs p (replicate n RemoveLast) !! p = Some f' ∧
        table_of f' =
          {| columns := fieldnames_of f;
             data := take (length (table_rows f) - n) (table_rows f) |}.
Proof.
  revert fs f. induction n as [|n IH]; intros fs f Hf Hwf.
  - exists f. split; [done |]. rewrite Nat.sub_0_r, take_ge by done. done.
  - cbn [replicate]. rewrite run_ops_cons. unfold run_op, op_trace.
    rewrite (remove_last_row_from_csv_wf fs p f Hf Hwf).
    destruct (data_records f) as [|d ds] eqn:Hd; cbn [trace].
    + destruct (IH fs f Hf Hwf) as (f' & Hrun & Ht). exists f'.
      split; [exact Hrun |]. rewrite Ht. unfold table_rows. rewrite Hd. done.
    + assert (fieldnames_of f ≠ []) as Hh.
      { intros Hh. apply wf_table_no_columns in Hh; [congruence | done]. }
      rewrite io_run_rewrite.
      set (f1 := fieldnames_of f :: removelast (table_rows f)).
      assert (removelast (table_rows f) =
              pad (length (fieldnames_of f)) <$> removelast (data_records f)) as Hrl.
      { unfold table_rows. by rewrite removelast_fmap. }
      assert (table_of f1 = {| columns := fieldnames_of f;
                               data := removelast (table_rows f) |}) as Ht1.
      { unfold f1. rewrite Hrl. by apply table_of_padded. }
      assert (wf_table f1) as Hwf1.
      { unfold f1. rewrite Hrl. apply wf_table_cons; [apply Hwf |].
        apply Forall_fmap, Forall_forall. intros r _. simpl. by rewrite pad_length. }
      destruct (IH (<[p := f1]> fs) f1 (lookup_insert_eq _ _ _) Hwf1)
        as (f' & Hrun & Ht).
      exists f'. split; [exact Hrun |]. rewrite Ht.
      apply (f_equal columns) in Ht1 as Hc. apply (f_equal data) in Ht1 as Hdata.
      cbn [columns data table_of] in Hc, Hdata. rewrite Hc, Hdata.
      f_equal. rewrite removelast_take, length_take, take_take. f_equal. lia.
Qed.

(** Three removals on the table of the spec's scenario, which has two rows. *)
Lemma remove_last_repeated_witness :
  ∃ f', run_ops (λ _, 0) scenario_fs "captures.csv" (replicate 3 RemoveLast)
          !! "captures.csv" = Some f' ∧
        table_of f' = {| columns := ["a"; "b"; "c"]; data := [] |}.
Proof.
  destruct (remove_last_repeated (λ _, 0) 3 scenario_fs "captures.csv" scenario_file)
    as (f' & Hrun & Ht).
  - apply lookup_singleton_eq.
  - by apply scenario_fs_wf, lookup_singleton_eq.
  - exists f'. split; [exact Hrun |]. rewrite Ht. by vm_compute.
Defined.



(** ** One multi-row append and many single-row appends *)











(** * More of the worker *)

(** ** Dictionaries built key by key *)

Lemma dict_set_fresh {V} (d : pydict V) k v :
  k ∉ dict_keys d → dict_set d k v = d ++ [(k, v)].
Proof.
  unfold dict_keys. induction d as [|[k' v'] d IH]; intros Hk; [done |].
  simpl in *. apply not_elem_of_cons in Hk as [Hne Hk].
  rewrite decide_False by done. by rewrite IH.
Qed.

Lemma dict_set_NoDup {V} (d : pydict V) k v :
  NoDup (dict_keys d) → NoDup (dict_keys (dict_set d k v)).
Proof.
  intros Hd. rewrite dict_keys_set. destruct (decide (k ∈ dict_keys d)); [done |].
  apply NoDup_app. split; [done |]. split; [| apply NoDup_singleton].
  intros x Hx ->%list_elem_of_singleton. done.
Qed.

Lemma foldl_dict_set_NoDup {V A} (key : A → string) (val : A → V) (l : list A)
    (d : pydict V) :
  NoDup (dict_keys d) →
  NoDup (dict_keys (foldl (λ d x, dict_set d (key x) (val x)) d l)).
Proof.
  revert d. induction l as [|x l IH]; intros d Hd; [done |].
  simpl. by apply IH, dict_set_NoDup.
Qed.

(** Assigning distinct new keys one after the other appends the items. *)
Lemma foldl_dict_set_fresh {V A} (key : A → string) (val : A → V) (l : list A)
    (d : pydict V) :
  NoDup (dict_keys d ++ (key <$> l)) →
  foldl (λ d x, dict_set d (key x) (val x)) d l
    = d ++ ((λ x, (key x, val x)) <$> l).
Proof.
  revert d. induction l as [|x l IH]; intros d Hnd; simpl.
  - by rewrite app_nil_r.
  - assert (key x ∉ dict_keys d) as Hx.
    { apply NoDup_app in Hnd as (_ & Hdisj & _). intros Hin.
      eapply Hdisj; [done | left]. }
    rewrite dict_set_fresh by done. rewrite IH.
    + by rewrite <-app_assoc.
    + unfold dict_keys in *. rewrite fmap_app, <-app_assoc. done.
Qed.

Lemma dict_keys_fmap {V W} (g : V → W) (d : pydict V) :
  dict_keys (prod_map id g <$> d) = dict_keys d.
Proof.
  unfold dict_keys. rewrite <-list_fmap_compose.
  apply list_fmap_ext. by intros _ [k v] _.
Qed.

Lemma dict_get_fmap {V W} (g : V → W) (d : pydict V) k :
  dict_get (prod_map id g <$> d) k = g <$> dict_get d k.
Proof.
  induction d as [|[k' v] d IH]; [done |]. csimpl.
  destruct (decide (k' = k)); [done | apply IH].
Qed.

(** ** The normalisation of the model's answer *)

(** X12. [_run_ollama_extraction] keeps the keys of the parsed answer in
    their order and gives each the text of its value: JSON for a list or
    a mapping, the empty string for [null], [str] otherwise.  An answer
    that is not a mapping gives the empty row. *)
Theorem normalize_items (repr_str : string → string) (data : json) :
  (∀ d, data = JDict d → NoDup (dict_keys d) →
        normalize repr_str data
          = (λ kv, (kv.1, stringify_normalize repr_str kv.2)) <$> d) ∧
  ((∀ d, data ≠ JDict d) → normalize repr_str data = []).
Proof.
  split.
  - intros d -> Hnd. simpl.
    apply (foldl_dict_set_fresh fst (λ kv, stringify_normalize repr_str kv.2) d []).
    by simpl.
  - intros Hd. destruct data as [| | | | | |d]; try done. by destruct (Hd d).
Qed.

(** ** What the worker does with a normalised answer *)

Lemma chars_nil s : chars s = [] → s = "".
Proof. by destruct s. Qed.

Lemma chars_str s x : x ∈ chars s → ∃ c, x = JStr c.
Proof.
  induction s as [|c s IH]; simpl; [by intros ?%elem_of_nil |].
  intros [->|Hx]%elem_of_cons; eauto.
Qed.

Lemma csv_text_as_result (repr_str : string → string) (normalized : Row) :
  prod_map id (stringify_worker repr_str) <$> (prod_map id JStr <$> normalized)
    = normalized.
Proof.
  rewrite <-list_fmap_compose. rewrite <-(list_fmap_id normalized) at 2.
  apply list_fmap_ext. by intros _ [k v] _.
Qed.

Lemma flatten_tx_str (repr_str : string → string) (summary : json) c :
  flatten_tx repr_str summary (JStr c) = inl AttributeError.
Proof. by destruct summary. Qed.

(** X13. The worker on what the extraction returns.  The extraction
    hands over a row of strings.  Unless it has both the keys
    [transactions] and [summary], the worker saves that very row with the
    single-row append.  If it has both, their values are texts, not a
    list and a mapping: the worker raises [AttributeError] and saves
    nothing, except when both texts are empty, where it saves the row
    without keys.  The multi-row append is never reached. *)
Theorem worker_on_normalized (repr_str : string → string) (normalized : Row) :
  let result := as_result normalized in
  let structured :=
    "transactions" ∈ dict_keys normalized ∧ "summary" ∈ dict_keys normalized in
  (¬ structured → worker_save repr_str result = inr (SaveOne normalized)) ∧
  (structured →
     worker_save repr_str result = inl AttributeError ∨
     (dict_get normalized "summary" = Some "" ∧
      dict_get normalized "transactions" = Some "" ∧
      worker_save repr_str result = inr (SaveOne []))) ∧
  (∀ flat_rows, worker_save repr_str result ≠ inr (SaveMany flat_rows)).
Proof.
  cbv zeta.
  assert ((¬ ("transactions" ∈ dict_keys normalized ∧ "summary" ∈ dict_keys normalized)
           → worker_save repr_str (as_result normalized) = inr (SaveOne normalized)) ∧
          ("transactions" ∈ dict_keys normalized ∧ "summary" ∈ dict_keys normalized →
             worker_save repr_str (as_result normalized) = inl AttributeError ∨
             (dict_get normalized "summary" = Some "" ∧
              dict_get normalized "transactions" = Some "" ∧
              worker_save repr_str (as_result normalized) = inr (SaveOne []))))
    as [Hflat Hstruct].
  { unfold worker_save, as_result. rewrite dict_keys_fmap, !dict_get_fmap. split.
    - intros Hnot.
      assert (bool_decide ("transactions" ∈ dict_keys normalized)
              && bool_decide ("summary" ∈ dict_keys normalized) = false) as ->.
      { apply andb_false_iff.
        destruct (decide ("transactions" ∈ dict_keys normalized)) as [Ht|Ht];
          [right | left]; apply bool_decide_eq_false_2; tauto. }
      by rewrite (csv_text_as_result repr_str).
    - intros [Ht Hs]. rewrite !bool_decide_eq_true_2 by done. cbn [andb].
      destruct (dict_get normalized "summary") as [s|] eqn:Hgs.
      2:{ apply dict_get_None in Hgs. done. }
      destruct (dict_get normalized "transactions") as [t|] eqn:Hgt.
      2:{ apply dict_get_None in Hgt. done. }
      cbn [fmap option_fmap option_map default from_option id].
      destruct t as [|c t].
      + cbn. destruct s as [|c s]; cbn; [by right | by left].
      + left.
        assert (py_or (JStr (String c t)) (JList []) = JStr (String c t)) as ->.
        { unfold py_or, truthy. by rewrite bool_decide_eq_false_2. }
        cbn [iterate chars exn_bind exn_map]. by rewrite flatten_tx_str. }
  split; [done |]. split; [done |]. intros flat_rows Hmany.
  destruct (decide ("transactions" ∈ dict_keys normalized
                    ∧ "summary" ∈ dict_keys normalized)) as [Hs|Hs].
  - destruct (Hstruct Hs) as [He|(_ & _ & He)]; congruence.
  - rewrite (Hflat Hs) in Hmany. done.
Qed.

(** ** How the worker can end *)

Lemma exn_map_flatten_tx_error (repr_str : string → string) summary l e :
  exn_map (flatten_tx repr_str summary) l = inl e → e = AttributeError.
Proof.
  induction l as [|tx l IH]; [done |]. simpl. unfold flatten_tx at 1.
  destruct summary as [| | | | | |s]; try by intros [= <-].
  cbn [items exn_bind].
  destruct tx as [| | | | | |t]; try by intros [= <-].
  cbn [items exn_bind].
  destruct (exn_map (flatten_tx repr_str (JDict s)) l) as [e'|rows];
    cbn [exn_bind]; [| done].
  intros [= <-]. by apply IH.
Qed.

(** X14. The worker fails only in the structured branch, and then with
    [AttributeError] or [TypeError]: a result that is a [dict] without
    both keys [transactions] and [summary], or the dataclass, is always
    saved, with the single-row append.  The multi-row append is never
    called with an empty list. *)
Theorem worker_save_outcomes (repr_str : string → string) (result : extraction) :
  (worker_save repr_str result = inl AttributeError ∨
   worker_save repr_str result = inl TypeError ∨
   (∃ flat, worker_save repr_str result = inr (SaveOne flat)) ∨
   (∃ flat flat_rows, worker_save repr_str result = inr (SaveMany (flat :: flat_rows)))) ∧
  ((∀ d, result = RDict d →
         ¬ ("transactions" ∈ dict_keys d ∧ "summary" ∈ dict_keys d)) →
   ∃ flat, worker_save repr_str result = inr (SaveOne flat)).
Proof.
  destruct result as [d|obj].
  2:{ split; [right; right; left |]; by eexists. }
  unfold worker_save.
  destruct (decide ("transactions" ∈ dict_keys d ∧ "summary" ∈ dict_keys d))
    as [[Ht Hs]|Hnot].
  - split; [| intros Hd; by destruct (Hd d eq_refl)].
    rewrite !bool_decide_eq_true_2 by done. cbn [andb].
    set (summary := py_or _ (JDict [])). set (txs := py_or _ (JList [])).
    clearbody summary txs.
    destruct (iterate txs) as [e|txl] eqn:Hit; cbn [exn_bind].
    { right. left. destruct txs; simpl in Hit; by simplify_eq. }
    destruct (exn_map (flatten_tx repr_str summary) txl) as [e|rows] eqn:Hmap;
      cbn [exn_bind].
    { left. by apply exn_map_flatten_tx_error in Hmap as ->. }
    destruct rows as [|row rows].
    + destruct summary as [| | | | | |s]; cbn [items exn_bind]; try by left.
      right. right. left. by eexists.
    + right. right. right. by exists row, rows.
  - assert (bool_decide ("transactions" ∈ dict_keys d)
            && bool_decide ("summary" ∈ dict_keys d) = false) as ->.
    { apply andb_false_iff.
      destruct (decide ("transactions" ∈ dict_keys d)) as [Ht|Ht];
        [right | left]; apply bool_decide_eq_false_2; tauto. }
    split; [right; right; left |]; by eexists.
Qed.

(** ** The worker and the store together *)

Lemma worker_save_valid (repr_str : string → string) (result : extraction) s :
  (∀ d, result = RDict d → NoDup (dict_keys d)) →
  worker_save repr_str result = inr s → op_valid (save_op s).
Proof.
  intros Hvalid. destruct result as [d|obj]; unfold worker_save.
  - destruct (bool_decide _ && bool_decide _).
    + destruct (iterate _) as [e|txl]; cbn [exn_bind]; [done |].
      destruct (exn_map _ txl) as [e|rows]; cbn [exn_bind]; [done |].
      destruct rows as [|row rows]; [| by intros [= <-]].
      destruct (items _) as [e|sm]; cbn [exn_bind]; [done |].
      intros [= <-]. simpl.
      apply (foldl_dict_set_NoDup (λ kv, "summary_" +:+ kv.1)
               (λ kv, stringify_worker repr_str kv.2)).
      apply NoDup_nil_2.
    + intros [= <-]. simpl. rewrite dict_keys_fmap. by apply Hvalid.
  - intros [= <-]. simpl. apply (bool_decide_unpack _). by vm_compute.
Qed.

(** X15. Whatever the worker saves, the table stays well-formed: if the
    file, when there is one, is a well-formed table and the result, when
    it is a [dict], has each key once, then the file after the worker's
    call of the store is a well-formed table. *)
Theorem worker_keeps_table_wf (repr_str : string → string) (slot : string → nat)
    (fs : filesystem) (p : string) (result : extraction) (s : save) :
  (∀ d, result = RDict d → NoDup (dict_keys d)) →
  (∀ f, fs !! p = Some f → wf_table f) →
  worker_save repr_str result = inr s →
  ∀ f', run_op slot fs p (save_op s) !! p = Some f' → wf_table f'.
Proof.
  intros Hvalid Hwf Hsave. apply run_op_wf; [done |].
  by eapply worker_save_valid.
Qed.

(** The structured result with two transactions, saved to a new file. *)
Lemma worker_keeps_table_wf_witness :
  wf_table [["summary_a"; "b"]; ["1"; "2"]; ["1"; "3"]].
Proof.
  apply (worker_keeps_table_wf (λ s, s) (λ _, 0) ∅ "captures.csv" structured_two
           (SaveMany [[("summary_a", "1"); ("b", "2")];
                      [("summary_a", "1"); ("b", "3")]])).
  - intros d [= <-]. apply (bool_decide_unpack _). by vm_compute.
  - intros f Hf. by rewrite lookup_empty in Hf.
  - reflexivity.
  - by vm_compute.
Defined.

(** ** The structured branch in general *)








(** ** Reading the model's answer *)

Lemma str_app_nil_l (b : string) : "" +:+ b = b.
Proof. reflexivity. Qed.

Lemma str_app_cons x (a b : string) : String x a +:+ b = String x (a +:+ b).
Proof. reflexivity. Qed.

Ltac str_simpl :=
  repeat (rewrite str_app_cons in * || rewrite str_app_nil_l in *); simpl in *.

Lemma str_app_assoc (a b c : string) : (a +:+ b) +:+ c = a +:+ (b +:+ c).
Proof. induction a as [|x a IH]; str_simpl; [done | by rewrite IH]. Qed.

Lemma str_length_app (a b : string) :
  String.length (a +:+ b) = String.length a + String.length b.
Proof. induction a as [|x a IH]; str_simpl; [done | by rewrite IH]. Qed.

(** Two ways to cut one text: the shorter first part begins the longer. *)
Lemma str_app_split (a x b y : string) :
  a +:+ x = b +:+ y → String.length a < String.length b →
  ∃ m, b = a +:+ m ∧ x = m +:+ y ∧ m ≠ "".
Proof.
  revert b. induction a as [|c a IH]; intros b Heq Hlen.
  - exists b. split; [done |]. split; [done |]. intros ->. str_simpl; lia.
  - destruct b as [|c' b]; [str_simpl; lia |]. str_simpl.
    injection Heq as -> Heq. destruct (IH b Heq) as (m & -> & -> & Hm); [lia |].
    by exists m.
Qed.

Lemma substring_middle (a b c : string) :
  String.substring (String.length a) (String.length b) (a +:+ b +:+ c) = b.
Proof.
  induction a as [|x a IH]; str_simpl; [| done].
  induction b as [|y b IH]; str_simpl; [by destruct c | by rewrite IH].
Qed.

Lemma str_find_None c s : str_find c s = None → ∀ a b, s ≠ a +:+ String c b.
Proof.
  induction s as [|x s IH]; simpl; intros Hf a b Heq.
  - by destruct a.
  - destruct (decide (x = c)) as [|Hne]; [done |].
    destruct (str_find c s) eqn:Hs; [done |].
    destruct a as [|y a]; str_simpl; injection Heq as -> Heq; [done |].
    by eapply IH.
Qed.

Lemma str_find_Some c s i :
  str_find c s = Some i →
  ∃ pre post, s = pre +:+ String c post ∧ String.length pre = i ∧
              ∀ a b, pre ≠ a +:+ String c b.
Proof.
  revert i. induction s as [|x s IH]; simpl; intros i Hf; [done |].
  destruct (decide (x = c)) as [->|Hne].
  - injection Hf as <-. exists "", s. split; [done |]. split; [done |].
    intros a b. by destruct a.
  - destruct (str_find c s) as [j|] eqn:Hs; [| done]. injection Hf as <-.
    destruct (IH j eq_refl) as (pre & post & -> & <- & Hpre).
    exists (String x pre), post. split; [done |]. split; [done |].
    intros a b Heq. destruct a as [|y a]; str_simpl; injection Heq as -> Heq; [done |].
    by eapply Hpre.
Qed.

Lemma str_rfind_None c s : str_rfind c s = None → ∀ a b, s ≠ a +:+ String c b.
Proof.
  induction s as [|x s IH]; simpl; intros Hf a b Heq.
  - by destruct a.
  - destruct (str_rfind c s) eqn:Hs; [done |].
    destruct (decide (x = c)) as [|Hne]; [done |].
    destruct a as [|y a]; str_simpl; injection Heq as -> Heq; [done |].
    by eapply IH.
Qed.

Lemma str_rfind_Some c s i :
  str_rfind c s = Some i →
  ∃ pre post, s = pre +:+ String c post ∧ String.length pre = i ∧
              ∀ a b, post ≠ a +:+ String c b.
Proof.
  revert i. induction s as [|x s IH]; simpl; intros i Hf; [done |].
  destruct (str_rfind c s) as [j|] eqn:Hs.
  - injection Hf as <-.
    destruct (IH j eq_refl) as (pre & post & -> & <- & Hpost).
    by exists (String x pre), post.
  - destruct (decide (x = c)) as [->|Hne]; [| done]. injection Hf as <-.
    exists "", s. split; [done |]. split; [done |].
    by apply str_rfind_None.
Qed.

(** The first occurrence is not after any occurrence. *)
Lemma str_first_le c (pre post p q : string) :
  pre +:+ String c post = p +:+ String c q →
  (∀ a b, pre ≠ a +:+ String c b) →
  String.length pre ≤ String.length p.
Proof.
  intros Heq Hpre. destruct (decide (String.length p < String.length pre)) as [Hlt|]; [| lia].
  destruct (str_app_split p (String c q) pre (String c post)) as (m & -> & Hm & Hne);
    [done | done |].
  destruct m as [|y m]; [done |]. str_simpl. injection Hm as <- _.
  by destruct (Hpre p m).
Qed.

(** The last occurrence is not before any occurrence. *)
Lemma str_last_ge c (pre post p q : string) :
  pre +:+ String c post = p +:+ String c q →
  (∀ a b, post ≠ a +:+ String c b) →
  String.length p ≤ String.length pre.
Proof.
  intros Heq Hpost. destruct (decide (String.length pre < String.length p)) as [Hlt|]; [| lia].
  destruct (str_app_split pre (String c post) p (String c q)) as (m & -> & Hm & Hne);
    [done | done |].
  destruct m as [|y m]; [done |]. str_simpl. injection Hm as <- Hm.
  by destruct (Hpost m q).
Qed.

(** X17. What [parse_json_lenient] falls back on when the text as a whole
    does not parse.  If the text has an opening brace with a closing
    brace somewhere after it, the second attempt parses the stretch from
    the first opening brace of the text to its last closing brace, both
    included, and the result is what that gives, or the empty dict when
    it does not parse either.  If the text has no such pair, the result
    is the empty dict. *)
Theorem parse_json_lenient_span (loads : string → option json) (text : string) :
  loads text = None →
  (∃ pre mid post,
     text = pre +:+ String lbrace mid +:+ String rbrace post ∧
     (∀ a b, pre ≠ a +:+ String lbrace b) ∧
     (∀ a b, post ≠ a +:+ String rbrace b) ∧
     parse_json_lenient loads text
       = default (JDict []) (loads (String lbrace mid +:+ String rbrace ""))) ∨
  ((∀ pre mid post, text ≠ pre +:+ String lbrace mid +:+ String rbrace post) ∧
   parse_json_lenient loads text = JDict []).
Proof.
  intros Hloads. unfold parse_json_lenient. rewrite Hloads.
  destruct (str_find lbrace text) as [start|] eqn:Hfind.
  2:{ right. split; [| done]. intros pre mid post Heq.
      by eapply (str_find_None _ _ Hfind pre). }
  destruct (str_rfind rbrace text) as [end_|] eqn:Hrfind.
  2:{ right. split; [| done]. intros pre mid post Heq.
      apply (str_rfind_None _ _ Hrfind (pre +:+ String lbrace mid) post).
      by rewrite str_app_assoc. }
  destruct (str_find_Some _ _ _ Hfind) as (pre1 & post1 & H1 & Hlen1 & Hpre1).
  destruct (str_rfind_Some _ _ _ Hrfind) as (pre2 & post2 & H2 & Hlen2 & Hpost2).
  destruct (decide (start < end_)) as [Hlt|Hge].
  - left.
    destruct (str_app_split pre1 (String lbrace post1) pre2 (String rbrace post2))
      as (m & -> & Hm & Hne); [congruence | lia |].
    destruct m as [|y mid]; [done |]. str_simpl. injection Hm as <- Hm.
    exists pre1, mid, post2. split; [| split; [done | split; [done |]]].
    { by rewrite H2, str_app_assoc. }
    f_equal. f_equal. unfold slice. subst start end_.
    rewrite H2, str_app_assoc.
    replace (String.length (pre1 +:+ String lbrace mid) + 1 - String.length pre1)
      with (String.length (String lbrace mid +:+ String rbrace ""))
      by (rewrite !str_length_app; simpl; lia).
    change (String lbrace mid +:+ String rbrace post2)
      with (String lbrace (mid +:+ String rbrace post2)).
    replace (String lbrace (mid +:+ String rbrace post2))
      with ((String lbrace mid +:+ String rbrace "") +:+ post2)
      by (rewrite str_app_assoc; reflexivity).
    apply substring_middle.
  - right. split; [| done]. intros pre mid post Heq.
    assert (String.length pre1 ≤ String.length pre) as Hle1.
    { eapply (str_first_le lbrace pre1 post1 pre (mid +:+ String rbrace post));
        [| done]. by rewrite <-H1, Heq. }
    assert (String.length (pre +:+ String lbrace mid) ≤ String.length pre2) as Hle2.
    { eapply (str_last_ge rbrace pre2 post2 (pre +:+ String lbrace mid) post);
        [| done]. by rewrite <-H2, Heq, str_app_assoc. }
    rewrite str_length_app in Hle2. simpl in Hle2. lia.
Qed.

(** An answer wrapped in prose. *)
Lemma parse_json_lenient_span_witness :
  (∃ pre mid post,
     "ok {} done" = pre +:+ String lbrace mid +:+ String rbrace post ∧
     (∀ a b, pre ≠ a +:+ String lbrace b) ∧
     (∀ a b, post ≠ a +:+ String rbrace b) ∧
     parse_json_lenient loads_empty_object "ok {} done"
       = default (JDict []) (loads_empty_object (String lbrace mid +:+ String rbrace ""))) ∨
  ((∀ pre mid post, "ok {} done" ≠ pre +:+ String lbrace mid +:+ String rbrace post) ∧
   parse_json_lenient loads_empty_object "ok {} done" = JDict []).
Proof.
  apply (parse_json_lenient_span loads_empty_object "ok {} done"). reflexivity.
Defined.

(** ** The table of the window *)

Lemma reader_row_named_get fieldnames r i k :
  NoDup fieldnames → fieldnames !! i = Some k →
  dict_get (rr_named (reader_row fieldnames r)) k = Some (r !! i).
Proof.
  intros Hnd Hi.
  destruct (decide (length r ≤ length fieldnames)) as [Hle|Hlong];
    [by apply reader_row_get |].
  unfold reader_row. rewrite decide_True by lia. simpl.
  rewrite (dict_get_foldl_set fst (λ kv, Some kv.2)). simpl.
  assert (i < length r) as Hlt by (apply lookup_lt_Some in Hi; lia).
  destruct (lookup_lt_is_Some_2 r i Hlt) as [s Hs]. rewrite Hs.
  destruct (last (filter (λ kv, kv.1 = k) (zip fieldnames r))) as [[k' s']|] eqn:Hz.
  - apply last_filter_Some in Hz as [Hin Hk]. simpl in Hk. subst k'.
    apply list_elem_of_lookup in Hin as [j Hj].
    apply lookup_zip_with_Some in Hj as (k' & s'' & Heq & Hkj & Hsj).
    injection Heq as <- <-.
    assert (j = i) as -> by (eapply NoDup_lookup; eauto).
    simpl. congruence.
  - exfalso. eapply (last_filter_None _ _ Hz (k, s)); [| done].
    apply list_elem_of_lookup. exists i.
    apply lookup_zip_with_Some. eauto.
Qed.

Lemma table_values_reader_row fieldnames r :
  NoDup fieldnames →
  table_values fieldnames (reader_row fieldnames r)
    = (Some <$> take (length fieldnames) r)
        ++ replicate (length fieldnames - length r) None.
Proof.
  intros Hnd. unfold table_values. apply list_eq. intros i.
  rewrite list_lookup_fmap.
  destruct (fieldnames !! i) as [k|] eqn:Hk; simpl.
  - rewrite (reader_row_named_get _ _ i) by done. simpl.
    pose proof (lookup_lt_Some _ _ _ Hk) as Hi.
    destruct (decide (i < length r)) as [Hr|Hr].
    + destruct (lookup_lt_is_Some_2 r i Hr) as [s Hs].
      rewrite lookup_app_l by (rewrite length_fmap, length_take; lia).
      by rewrite list_lookup_fmap, lookup_take_lt, Hs by done.
    + rewrite lookup_ge_None_2 by lia.
      rewrite lookup_app_r by (rewrite length_fmap, length_take; lia).
      symmetry. apply lookup_replicate_2.
      rewrite length_fmap, length_take. lia.
  - symmetry. apply lookup_ge_None_2. apply lookup_ge_None_1 in Hk.
    rewrite length_app, length_fmap, length_take, length_replicate. lia.
Qed.

(** X18. What the window's table shows of a file whose header names are
    distinct: the header as headings and, for every record that is not
    blank, as many fields as there are headings.  A short record is
    filled with [None], not with the default [""] of [row.get], which is
    never taken; a long record is cut. *)
Theorem load_data_table_values (fs : filesystem) (csv_path : string) (f : csv_file) :
  fs !! csv_path = Some f → NoDup (fieldnames_of f) →
  load_data_table fs csv_path
    = Some (fieldnames_of f,
            (λ r, (Some <$> take (length (fieldnames_of f)) r)
                    ++ replicate (length (fieldnames_of f) - length r) None)
              <$> data_records f).
Proof.
  intros Hf Hnd. unfold load_data_table. rewrite Hf. simpl. f_equal. f_equal.
  unfold DictReader_rows. rewrite <-list_fmap_compose.
  apply list_fmap_ext. intros _ r _. simpl. by apply table_values_reader_row.
Qed.

(** A table of three columns with a record of two fields. *)
Lemma load_data_table_values_witness :
  load_data_table {[ "captures.csv" := [["a"; "b"; "c"]; ["1"; "2"]] ]} "captures.csv"
    = Some (["a"; "b"; "c"], [[Some "1"; Some "2"; None]]).
Proof.
  apply (load_data_table_values
           {[ "captures.csv" := [["a"; "b"; "c"]; ["1"; "2"]] ]} "captures.csv"
           [["a"; "b"; "c"]; ["1"; "2"]]).
  - reflexivity.
  - apply (bool_decide_unpack _). by vm_compute.
Defined.

Lemma full_table_wf f : full_table f → wf_table f.
Proof.
  intros [Hnd Hlen]. split; [done |].
  eapply Forall_impl; [exact Hlen |]. intros r Hr. simpl in *. lia.
Qed.

Lemma full_table_cons h (rs : list record) :
  NoDup h → Forall (λ r, length r = length h) rs → full_table (h :: rs).
Proof. by split. Qed.

Lemma full_table_written new_fields (old : list record) (rows : list Row) :
  NoDup new_fields →
  full_table (new_fields :: (pad (length new_fields) <$> old)
                         ++ (render new_fields <$> rows)).
Proof.
  intros Hnd. apply full_table_cons; [done |]. apply Forall_app. split.
  - apply Forall_fmap, Forall_forall. intros r _. simpl. by rewrite pad_length.
  - apply Forall_fmap, Forall_forall. intros r _. simpl. by rewrite render_length.
Qed.

Lemma run_op_full slot (fs : filesystem) p op :
  (∀ f, fs !! p = Some f → full_table f) → op_valid op →
  ∀ f', run_op slot fs p op !! p = Some f' → full_table f'.
Proof.
  intros Hfull Hop f'. unfold run_op. destruct op as [row|rows|]; simpl.
  - rewrite sync_header_and_append_eq. destruct (fs !! p) as [f|] eqn:Hf.
    + specialize (Hfull f eq_refl). pose proof (full_table_wf f Hfull) as Hwf.
      cbv zeta. destruct (decide _) as [Heq|Hne]; cbn [trace].
      * change (io_run fs [OpenA p; WriteRow p ?r])
          with (io_run fs (OpenA p :: (WriteRow p <$> [r]))).
        erewrite io_run_append by done. rewrite lookup_insert_eq. intros [= <-].
        rewrite Heq. destruct f as [|h tl]; simpl.
        { simpl in Heq. by apply full_table_cons; [apply NoDup_nil_2 |]. }
        destruct Hfull as [Hnd Hlen]. simpl in *. apply full_table_cons; [done |].
        apply Forall_app. split; [done |]. constructor; [| done].
        by rewrite render_length.
      * rewrite io_run_rewrite, lookup_insert_eq. intros [= <-].
        rewrite rewritten_wf;
          [| done | by apply union_fields_NoDup, Hwf | apply union_fields_prefix].
        apply full_table_written. by apply union_fields_NoDup, Hwf.
    + rewrite append_row_to_csv_eq. unfold isfile.
      rewrite bool_decide_eq_false_2 by (rewrite Hf; by intros [? ?]).
      cbn [trace app].
      change (io_run fs (OpenA p :: [WriteRow p ?a; WriteRow p ?b]))
        with (io_run fs (OpenA p :: (WriteRow p <$> [a; b]))).
      rewrite io_run_append_lookup, Hf. simpl. intros [= <-].
      apply full_table_cons; [done |]. constructor; [| done]. by rewrite render_length.
  - rewrite sync_header_and_append_many_eq. destruct (fs !! p) as [f|] eqn:Hf.
    + specialize (Hfull f eq_refl). pose proof (full_table_wf f Hfull) as Hwf.
      cbv zeta. cbn [trace].
      rewrite io_run_rewrite, lookup_insert_eq. intros [= <-].
      rewrite rewritten_wf;
        [| done | by apply many_fields_NoDup, Hwf | by eexists].
      apply full_table_written. by apply many_fields_NoDup, Hwf.
    + destruct rows as [|r rows]; cbn [trace].
      * simpl. by rewrite Hf.
      * cbv zeta. rewrite io_run_rewrite, lookup_insert_eq. intros [= <-].
        apply (full_table_written _ [] (r :: rows)), set_iter_NoDup.
  - destruct (fs !! p) as [f|] eqn:Hf.
    + specialize (Hfull f eq_refl). pose proof (full_table_wf f Hfull) as Hwf.
      rewrite (remove_last_row_from_csv_wf fs p f Hf Hwf).
      destruct (data_records f) as [|d ds] eqn:Hd; cbn [trace].
      * simpl. rewrite Hf. by intros [= <-].
      * rewrite io_run_rewrite, lookup_insert_eq. intros [= <-].
        apply full_table_cons; [apply Hwf |].
        apply Forall_forall. intros r Hr%elem_of_removelast.
        unfold table_rows in Hr. apply list_elem_of_fmap in Hr as (r' & -> & _).
        by rewrite pad_length.
    + unfold remove_last_row_from_csv. rewrite Hf. simpl. by rewrite Hf.
Qed.

Lemma run_ops_full slot (fs : filesystem) p ops :
  (∀ f, fs !! p = Some f → full_table f) → Forall op_valid ops →
  ∀ f', run_ops slot fs p ops !! p = Some f' → full_table f'.
Proof.
  intros Hfull. induction ops as [|op ops IH] using rev_ind; intros Hops; [done |].
  apply Forall_app in Hops as [Hops Hop]. rewrite Forall_singleton in Hop.
  rewrite run_ops_snoc. apply run_op_full; [| done].
  intros f. by apply IH.
Qed.

(** X19. The window shows what the store wrote.  Started on no file, or
    on a table whose records all have the width of its header, every
    sequence of appends and removals leaves such a table, and
    [_load_data_table] then shows its header and, for every record that
    is not blank, the record's own fields: no [None] and no default
    value appears. *)
Theorem store_table_shown (slot : string → nat) (fs : filesystem) (p : string)
    (ops : list store_op) (f' : csv_file) :
  (∀ f, fs !! p = Some f → full_table f) → Forall op_valid ops →
  run_ops slot fs p ops !! p = Some f' →
  full_table f' ∧
  load_data_table (run_ops slot fs p ops) p
    = Some (fieldnames_of f', (λ r : record, Some <$> r) <$> data_records f').
Proof.
  intros Hfull Hops Hf'.
  pose proof (run_ops_full slot fs p ops Hfull Hops f' Hf') as Hfull'.
  split; [done |]. unfold load_data_table. rewrite Hf'. simpl. f_equal. f_equal.
  unfold DictReader_rows. rewrite <-list_fmap_compose.
  apply Forall_fmap_ext_1, Forall_forall. intros r Hr. simpl.
  destruct Hfull' as [Hnd Hlen].
  rewrite table_values_reader_row by done.
  assert (length r = length (fieldnames_of f')) as Hr'.
  { unfold data_records in Hr. apply list_elem_of_filter in Hr as [_ Hr].
    by eapply Forall_forall in Hlen. }
  rewrite take_ge by lia. rewrite Hr', Nat.sub_diag. simpl. by rewrite app_nil_r.
Qed.

(** Two appends to a new file, the second with a new column. *)
Lemma store_table_shown_witness :
  full_table [["a"; "b"]; ["1"; ""]; [""; "2"]] ∧
  load_data_table
    (run_ops (λ _, 0) ∅ "captures.csv" [Append [("a", "1")]; Append [("b", "2")]])
    "captures.csv"
    = Some (["a"; "b"], [[Some "1"; Some ""]; [Some ""; Some "2"]]).
Proof.
  apply (store_table_shown (λ _, 0) ∅ "captures.csv"
           [Append [("a", "1")]; Append [("b", "2")]]
           [["a"; "b"]; ["1"; ""]; [""; "2"]]).
  - intros f Hf. by rewrite lookup_empty in Hf.
  - repeat constructor; apply (bool_decide_unpack _); by vm_compute.
  - by vm_compute.
Defined.
